(** * uu.IDSet: a shallow embedding of src/uu/idset.go

    [IDSet] is declared as [map[ID]struct{}].  A Go map value is a
    reference: it is either [nil] or points to a hash table that every copy
    of the value shares.  The embedding therefore keeps the tables in a
    store and lets an [IDSet] be an optional address into it.  Methods are
    written in a small state-and-panic monad over that store, one
    definition per Go function, statement by statement.

    Go leaves the order of [for k := range m] unspecified and randomises
    it.  The store carries a stream of random numbers, every [range]
    draws a permutation of the keys from it, and every theorem holds for
    all streams.

    Layout: the Go packages and builtins idset.go relies on; idset.go
    itself (module [uu]); the vocabulary of the specifications; an
    implementation of the interface [Deps] on three identifiers; then the
    lemmas, the claims C1 to C10, and the claims at concrete inputs.

    Left out of [uu]: [PrettyPrint] and [AddIDs], which only forward to
    declarations outside idset.go. *)

From Stdlib Require Import Ascii.
From stdpp Require Import gmap strings list sorting.

Local Open Scope Z_scope.
#[local] Set Warnings "-clear-no-such-hyp".

(** ** Package strings (the functions idset.go calls) *)

Module GoStrings.

Definition len (s : string) : Z := Z.of_nat (String.length s).

(** [strings.HasPrefix(s, prefix)] *)
Definition HasPrefix (s prefix : string) : bool := String.prefix prefix s.

(** [s[lo:]] for [0 <= lo <= len(s)], bytewise. *)
Fixpoint drop (n : nat) (s : string) : string :=
  match n, s with
  | O, _ => s
  | S n, String _ s => drop n s
  | S _, EmptyString => EmptyString
  end.

(** [strings.HasSuffix(s, suffix)]:
    [len(s) >= len(suffix) && s[len(s)-len(suffix):] == suffix] *)
Definition HasSuffix (s suffix : string) : bool :=
  (len suffix <=? len s) &&
  String.eqb (drop (String.length s - String.length suffix) s) suffix.

(** [strings.TrimPrefix(s, prefix)] *)
Definition TrimPrefix (s prefix : string) : string :=
  if HasPrefix s prefix then drop (String.length prefix) s else s.

(** The slice expression [s[lo:hi]] on a string.  Go panics unless
    [0 <= lo <= hi <= len(s)]; [None] stands for that panic. *)
Definition slice (s : string) (lo hi : Z) : option string :=
  if (0 <=? lo) && (lo <=? hi) && (hi <=? len s)
  then Some (String.substring (Z.to_nat lo) (Z.to_nat (hi - lo)) s)
  else None.

(** [strings.Split(s, sep)] for a separator of one byte, which is how
    idset.go calls it ([strings.Split(str, ",")]).  The result always has
    one more element than [s] has separators. *)
Fixpoint Split (s : string) (sep : ascii) : list string :=
  match s with
  | EmptyString => [EmptyString]
  | String c s' =>
      if Ascii.eqb c sep then EmptyString :: Split s' sep
      else match Split s' sep with
           | w :: ws => String c w :: ws
           | [] => [String c EmptyString]
           end
  end.

(** [strings.IndexByte(s, c) >= 0] *)
Fixpoint contains_byte (s : string) (c : ascii) : bool :=
  match s with
  | EmptyString => false
  | String a s => Ascii.eqb a c || contains_byte s c
  end.

(** [strings.Join(elems, sep)] *)
Definition Join (elems : list string) (sep : string) : string :=
  String.concat sep elems.

End GoStrings.

(** ** What idset.go uses from the rest of the repository

    [ID], [IDNil], [IDFromString], [ID.String], the methods of [IDSlice]
    and [strutil.TrimSpace] are declared in files that are not part of
    this development.  They are collected in one interface; idset.go is
    verified against any implementation of it. *)

Class Deps := {
  (** [type ID], usable as a map key *)
  ID : Type;
  ID_eq_dec :: EqDecision ID;
  ID_countable :: Countable ID;
  (** [IDNil], the zero value of [ID] *)
  IDNil : ID;
  (** the dynamic type behind Go's [error] interface; [option Err] is an
      [error] value, [None] being [nil] *)
  Err : Type;
  (** [func IDFromString(string) (ID, error)] *)
  IDFromString : string → ID * option Err;
  (** [func (ID) String() string] *)
  ID_String : ID → string;
  (** the order [IDSlice.Sort] sorts by *)
  ID_le : relation ID;
  ID_le_dec :: RelDecision ID_le;
  (** [strutil.TrimSpace] *)
  TrimSpace : string → string;
  (** what an [any] holds when it is not [nil] ([driver.Value] is [any]) *)
  Dyn : Type;
  (** [func (IDSlice) MarshalJSON() ([]byte, error)] *)
  IDSlice_MarshalJSON : option (list ID) → list Byte.byte * option Err;
  (** [func (s *IDSlice) UnmarshalJSON([]byte) error]: from the slice the
      receiver points to and the data, the slice it points to afterwards
      and the error *)
  IDSlice_UnmarshalJSON : option (list ID) → list Byte.byte → option (list ID) * option Err;
  (** [func (IDSlice) Value() (driver.Value, error)] *)
  IDSlice_Value : option (list ID) → option Dyn * option Err;
  (** [func (s *IDSlice) Scan(any) error] *)
  IDSlice_Scan : option (list ID) → option Dyn → option (list ID) * option Err;
}.

(** ** The Go runtime: map store, random iteration order, panics *)

Section runtime.
Context `{Deps}.

(** Address of a hash table. *)
Definition loc := positive.

(** [type IDSet map[ID]struct{}]: [None] is the nil map. *)
Definition IDSet := option loc.

(** [type IDSlice []ID]: [None] is the nil slice. *)
Definition IDSlice := option (list ID).

Record runtime := Runtime {
  heap : gmap loc (gset ID);
  rng : nat → nat;
}.

(** A computation either panics ([None]) or returns a value and the
    next state. *)
Definition M (A : Type) : Type := runtime → option (A * runtime).

Definition ret {A} (a : A) : M A := λ σ, Some (a, σ).

Definition bind {A B} (m : M A) (k : A → M B) : M B :=
  λ σ, match m σ with
       | Some (a, σ') => k a σ'
       | None => None
       end.

Definition panic {A} : M A := λ _, None.

(** Lifts a partial builtin: [None] becomes a panic. *)
Definition must {A} (o : option A) : M A :=
  match o with Some a => ret a | None => panic end.

End runtime.

Declare Scope go_scope.
Delimit Scope go_scope with go.
Notation "'let*' x ':=' m 'in' k" := (bind m (λ x, k))
  (at level 10, x name, m at level 100, k at level 200,
   format "'[v' 'let*'  x  ':='  m  'in' '/' k ']'") : go_scope.
Notation "'let*' ' p ':=' m 'in' k" := (bind m (λ x, match x with p => k end))
  (at level 10, p pattern, m at level 100, k at level 200,
   format "'[v' 'let*'  ' p  ':='  m  'in' '/' k ']'") : go_scope.
Notation "m ';;' k" := (bind m (λ _, k))
  (at level 100, k at level 200, right associativity) : go_scope.
Local Open Scope go_scope.

Section shuffle.
Context {A : Type}.

(** The stream [r] with its first [n] numbers consumed. *)
Definition advance (n : nat) (r : nat → nat) : nat → nat := λ i, r (n + i)%nat.

(** A permutation of [l] drawn from the stream [r]: each element is
    inserted at a random position of the shuffled rest. *)
Fixpoint shuffle (r : nat → nat) (l : list A) : list A :=
  match l with
  | [] => []
  | x :: l =>
      let l' := shuffle (advance 1 r) l in
      let i := (r O `mod` S (length l'))%nat in
      take i l' ++ x :: drop i l'
  end.

End shuffle.

(** ** Builtins on maps and slices *)

Section builtins.
Context `{Deps}.

Definition set_heap (f : gmap loc (gset ID) → gmap loc (gset ID)) (σ : runtime) : runtime :=
  {| heap := f (heap σ); rng := rng σ |}.

Definition set_rng (f : (nat → nat) → nat → nat) (σ : runtime) : runtime :=
  {| heap := heap σ; rng := f (rng σ) |}.

(** The table a map value points to.  A non-nil value whose address is
    not allocated cannot arise in Go; reading through one panics here. *)
Definition table (s : loc) : M (gset ID) := λ σ,
  match heap σ !! s with
  | Some X => Some (X, σ)
  | None => None
  end.

(** [make(IDSet)] and [make(IDSet, n)]: a new empty table. *)
Definition make_IDSet : M IDSet := λ σ,
  let l := fresh (dom (heap σ)) in
  Some (Some l, set_heap <[l := ∅]> σ).

(** [len(s)]; the nil map has length 0. *)
Definition map_len (s : IDSet) : M nat :=
  match s with
  | None => ret O
  | Some l => let* X := table l in ret (size X)
  end.

(** [_, ok := s[id]]; reading the nil map finds nothing. *)
Definition map_lookup (s : IDSet) (id : ID) : M bool :=
  match s with
  | None => ret false
  | Some l => let* X := table l in ret (bool_decide (id ∈ X))
  end.

(** [s[id] = struct{}{}]; assignment to an entry of the nil map
    panics. *)
Definition map_store (s : IDSet) (id : ID) : M unit :=
  match s with
  | None => panic
  | Some l => let* X := table l in λ σ, Some (tt, set_heap <[l := {[id]} ∪ X]> σ)
  end.

(** [delete(s, id)]; a no-op on the nil map and on an absent key. *)
Definition map_delete (s : IDSet) (id : ID) : M unit :=
  match s with
  | None => ret tt
  | Some l => let* X := table l in λ σ, Some (tt, set_heap <[l := X ∖ {[id]}]> σ)
  end.

(** [clear(s)] *)
Definition map_clear (s : IDSet) : M unit :=
  match s with
  | None => ret tt
  | Some l => let* _ := table l in λ σ, Some (tt, set_heap <[l := ∅]> σ)
  end.

(** The keys that [for id := range s] visits, in the order it visits
    them: a permutation drawn from the random stream.  The loops of
    idset.go never add a key to the map they range over, and delete at
    most the key they are at, so the keys at loop entry are the keys
    visited. *)
Definition map_range (s : IDSet) : M (list ID) :=
  match s with
  | None => ret []
  | Some l =>
      let* X := table l in
      λ σ, Some (shuffle (rng σ) (elements X), set_rng (advance (size X)) σ)
  end.

(** [maps.Clone(s)]: a new table with the same keys; nil stays nil. *)
Definition maps_Clone (s : IDSet) : M IDSet :=
  match s with
  | None => ret None
  | Some l =>
      let* X := table l in
      λ σ, let l' := fresh (dom (heap σ)) in
           Some (Some l', set_heap <[l' := X]> σ)
  end.

(** [sl[i] = id] on a slice of length [length sl]; out of range
    panics. *)
Definition slice_store (sl : list ID) (i : nat) (id : ID) : M (list ID) :=
  if decide (i < length sl)%nat then ret (<[i := id]> sl) else panic.

(** [ss[i] = x] on a slice of any element type; out of range panics. *)
Definition elem_store {A} (ss : list A) (i : nat) (x : A) : M (list A) :=
  if decide (i < length ss)%nat then ret (<[i := x]> ss) else panic.

(** How the body of a loop ends: it falls through to the next
    iteration with the loop-carried variables, or executes [return]. *)
Inductive control (S R : Type) : Type :=
  | Continue (st : S)
  | Return (r : R).
Global Arguments Continue {_ _} _.
Global Arguments Return {_ _} _.

(** [for _, k := range ks { body }] over the keys in visiting order. *)
Fixpoint for_range {A S R} (ks : list A) (body : A → S → M (control S R))
    (st : S) : M (control S R) :=
  match ks with
  | [] => ret (Continue st)
  | k :: ks =>
      let* c := body k st in
      match c with
      | Continue st' => for_range ks body st'
      | Return r => ret (Return r)
      end
  end.

End builtins.

(** ** Package bytes and the conversions between [string] and [[]byte] *)

Module GoBytes.

(** [bytes.Equal(a, b)]; a nil slice equals an empty one. *)
Fixpoint Equal (a b : list Byte.byte) : bool :=
  match a, b with
  | [], [] => true
  | x :: a, y :: b => Byte.eqb x y && Equal a b
  | _, _ => false
  end.

(** [[]byte(s)] *)
Definition of_string (s : string) : list Byte.byte := String.list_byte_of_string s.

(** [string(b)] *)
Definition to_string (b : list Byte.byte) : string := String.string_of_list_byte b.

End GoBytes.

(** ** Package sort *)

Module GoSort.

(** [sort.Strings(ss)]: increasing order; Go compares strings byte by
    byte, as [String.le] does. *)
Definition Strings (ss : list string) : list string := merge_sort String.le ss.

End GoSort.

(** ** idset.go, package uu *)

Module uu.
Section idset.
Context `{Deps}.

(** [s == nil] *)
Definition is_nil (s : IDSet) : bool :=
  match s with None => true | Some _ => false end.

(** The elements a slice ranges over; none for the nil slice. *)
Definition slice_ids (sl : IDSlice) : list ID := default [] sl.

(** A [for ... range] loop whose body neither returns nor carries a
    variable. *)
Definition for_range_ {A} (ks : list A) (body : A → M unit) : M unit :=
  let* _ := for_range (R := Empty_set) ks (λ k _, body k;; ret (Continue tt)) tt in
  ret tt.

(** Modelled from the spec: [IDSlice.AsSet] is declared outside idset.go.
    The spec has a decoded sequence converted into the set with
    duplicates collapsing silently: a new map that receives every
    element of the slice. *)
Definition IDSlice_AsSet (sl : IDSlice) : M IDSet :=
  let* set := make_IDSet in
  for_range_ (slice_ids sl) (λ id, map_store set id);;
  ret set.

(** Modelled from the spec: [IDSlice.Sort] is declared outside idset.go.
    The spec has the ordered projection sorted by the identifier's total
    order.  Sorting the nil slice leaves it nil. *)
Definition IDSlice_Sort (sl : IDSlice) : IDSlice := merge_sort ID_le <$> sl.

(** Modelled from the spec: [IDSlice.String] is declared outside
    idset.go.  The spec has the canonical text be [set] followed by the
    bracketed, comma-separated string forms of the identifiers, [set[]]
    when there are none. *)
Definition IDSlice_String (sl : IDSlice) : string :=
  "[" +:+ GoStrings.Join (ID_String <$> slice_ids sl) "," +:+ "]".

(** [func (s IDSet) Add(id ID)], line 177 *)
Definition Add (s : IDSet) (id : ID) : M unit := map_store s id.

(** [func MakeIDSet(ids ...ID) IDSet], line 22; the variadic arguments
    arrive as a slice, nil when there are none. *)
Definition MakeIDSet (ids : IDSlice) : M IDSet := IDSlice_AsSet ids.

(** [func MakeIDSetFromStrings(strs []string) (IDSet, error)], line 27 *)
Definition MakeIDSetFromStrings (strs : list string) : M (IDSet * option Err) :=
  let* s := make_IDSet in
  let* c := for_range strs (λ str _,
              let '(id, err) := IDFromString str in
              match err with
              | Some e => ret (Return (None, Some e))
              | None => Add s id;; ret (Continue tt)
              end) tt in
  match c with
  | Return r => ret r
  | Continue _ => ret (s, None)
  end.

(** [func MakeIDSetMustFromStrings(strs ...string) IDSet], line 41 *)
Definition MakeIDSetMustFromStrings (strs : list string) : M IDSet :=
  let* '(s, err) := MakeIDSetFromStrings strs in
  match err with
  | Some _ => panic
  | None => ret s
  end.

(** [func IDSetFromString(str string) (IDSet, error)], line 50.  [rest]
    is the code from [if str == ""] on, which both the branch that
    strips the brackets and the branch that does not fall through to. *)
Definition IDSetFromString (str : string) : M (IDSet * option Err) :=
  let str := GoStrings.TrimPrefix str "set" in
  let rest (str : string) : M (IDSet * option Err) :=
    if String.eqb str EmptyString then ret (None, None)
    else
      let strs := GoStrings.Split str "," in
      let strs := TrimSpace <$> strs in
      MakeIDSetFromStrings strs in
  if GoStrings.HasPrefix str "[" && GoStrings.HasSuffix str "]" then
    let* str := must (GoStrings.slice str 1 (GoStrings.len str - 1)) in
    rest str
  else if String.eqb str "null" || String.eqb str "NULL" then
    ret (None, None)
  else
    rest str.

(** [func IDSetMust[T IDSource](vals ...T) IDSet], line 70.  [IDMust],
    declared outside idset.go, converts a value to an [ID] or panics; it
    is passed in as a function that returns nothing where it panics. *)
Definition IDSetMust {T} (IDMust : T → option ID) (vals : list T) : M IDSet :=
  if (length vals =? 0)%nat then ret None
  else
    let* s := make_IDSet in
    for_range_ vals (λ val,
      let* id := must (IDMust val) in
      Add s id);;
    ret s.

(** [func (s IDSet) Strings() []string], line 87; [None] is the nil
    slice. *)
Definition Strings (s : IDSet) : M (option (list string)) :=
  let* n := map_len s in
  if (n =? 0)%nat then ret None
  else
    let ss := replicate n EmptyString in
    let i := O in
    let* ks := map_range s in
    let* c := for_range (R := Empty_set) ks (λ id '(ss, i),
                let* ss := elem_store ss i (ID_String id) in
                ret (Continue (ss, S i))) (ss, i) in
    match c with
    | Continue (ss, _) =>
        let ss := GoSort.Strings ss in
        ret (Some ss)
    | Return r => match r with end
    end.

(** [func (s IDSet) GetOne() ID], line 110 *)
Definition GetOne (s : IDSet) : M ID :=
  let* ks := map_range s in
  let* c := for_range ks (λ id (_ : unit), ret (Return id)) tt in
  match c with
  | Return id => ret id
  | Continue _ => ret IDNil
  end.

(** [func (s IDSet) AsSet() IDSet], line 118 *)
Definition AsSet (s : IDSet) : IDSet := s.

(** [func (s IDSet) AsSlice() IDSlice], line 123.  [make(IDSlice, n)] is
    [n] zero values; the loop carries the slice and the index [i]. *)
Definition AsSlice (s : IDSet) : M IDSlice :=
  let* n := map_len s in
  if (n =? 0)%nat then ret None
  else
    let sl := replicate n IDNil in
    let i := O in
    let* ks := map_range s in
    let* c := for_range (R := Empty_set) ks (λ id '(sl, i),
                let* sl := slice_store sl i id in
                ret (Continue (sl, S i))) (sl, i) in
    match c with
    | Continue (sl, _) => ret (Some sl)
    | Return r => match r with end
    end.

(** [func (s IDSet) ForEach(callback func(ID) error) error], line 141.
    The callback is a closure: it reads and writes the variables it
    captured, here a state of type [Env], and returns an [error].  It
    does not write to the map that is being ranged over. *)
Definition ForEach {Env} (s : IDSet) (callback : ID → Env → Env * option Err)
    (env : Env) : M (Env * option Err) :=
  let* ks := map_range s in
  let* c := for_range ks (λ id env,
              let '(env, err) := callback id env in
              match err with
              | Some e => ret (Return (env, Some e))
              | None => ret (Continue env)
              end) env in
  match c with
  | Return r => ret r
  | Continue env => ret (env, None)
  end.

(** [func (s IDSet) AsSortedSlice() IDSlice], line 152 *)
Definition AsSortedSlice (s : IDSet) : M IDSlice :=
  let* sl := AsSlice s in
  let sl := IDSlice_Sort sl in
  ret sl.

(** [func (s IDSet) String() string], line 82 *)
Definition String (s : IDSet) : M string :=
  let* sl := AsSortedSlice s in
  ret ("set" +:+ IDSlice_String sl).

(** [func (set IDSet) AddSlice(s IDSlice)], line 158 *)
Definition AddSlice (set : IDSet) (s : IDSlice) : M unit :=
  for_range_ (slice_ids s) (λ id, map_store set id).

(** [func (s IDSet) AddSet(other IDSet)], line 164 *)
Definition AddSet (s other : IDSet) : M unit :=
  let* ks := map_range other in
  for_range_ ks (λ id, map_store s id).

(** [func (s IDSet) Contains(id ID) bool], line 183 *)
Definition Contains (s : IDSet) (id : ID) : M bool :=
  if is_nil s then ret false
  else map_lookup s id.

(** [func (s IDSet) Delete(id ID)], line 191 *)
Definition Delete (s : IDSet) (id : ID) : M unit := map_delete s id.

(** [func (s IDSet) Clear()], line 195 *)
Definition Clear (s : IDSet) : M unit := map_clear s.

(** [func (s IDSet) DeleteSlice(sl IDSlice)], line 199 *)
Definition DeleteSlice (s : IDSet) (sl : IDSlice) : M unit :=
  for_range_ (slice_ids sl) (λ id, map_delete s id).

(** [func (s IDSet) DeleteSet(other IDSet)], line 205 *)
Definition DeleteSet (s other : IDSet) : M unit :=
  let* ks := map_range other in
  for_range_ ks (λ id, map_delete s id).

(** [func (s IDSet) Clone() IDSet], line 211 *)
Definition Clone (s : IDSet) : M IDSet :=
  if is_nil s then ret None
  else maps_Clone s.

(** [func (s IDSet) Diff(other IDSet) IDSet], line 218 *)
Definition Diff (s other : IDSet) : M IDSet :=
  let* diff := make_IDSet in
  let* ks := map_range s in
  for_range_ ks (λ id,
    let* c := Contains other id in
    if negb c then Add diff id else ret tt);;
  let* ks := map_range other in
  for_range_ ks (λ id,
    let* c := Contains s id in
    if negb c then Add diff id else ret tt);;
  ret diff.

(** [func (s IDSet) Equal(other IDSet) bool], line 233 *)
Definition Equal (s other : IDSet) : M bool :=
  let* n := map_len s in
  let* m := map_len other in
  if negb (n =? m)%nat then ret false
  else
    let* ks := map_range s in
    let* c := for_range ks (λ id (_ : unit),
                let* c := Contains other id in
                if negb c then ret (Return false) else ret (Continue tt)) tt in
    match c with
    | Return r => ret r
    | Continue _ => ret true
    end.

(** [func (s IDSet) Len() int], line 246 *)
Definition Len (s : IDSet) : M Z :=
  let* n := map_len s in ret (Z.of_nat n).

(** [func (s IDSet) IsEmpty() bool], line 251 *)
Definition IsEmpty (s : IDSet) : M bool :=
  let* n := map_len s in ret (n =? 0)%nat.

(** [func (s IDSet) IsNull() bool], line 257 *)
Definition IsNull (s : IDSet) : bool := is_nil s.

(** [func (s IDSet) MarshalText() (text []byte, err error)], line 262 *)
Definition MarshalText (s : IDSet) : M (list Byte.byte * option Err) :=
  let* str := String s in
  ret (GoBytes.of_string str, None).

(** [func (s *IDSet) UnmarshalText(text []byte) error], line 267.
    Methods with the pointer receiver [s *IDSet] take the value of the
    variable [*s] and return its value afterwards next to the error. *)
Definition UnmarshalText (s : IDSet) (text : list Byte.byte) : M (IDSet * option Err) :=
  let* '(parsed, err) := IDSetFromString (GoBytes.to_string text) in
  match err with
  | Some e => ret (s, Some e)
  | None => ret (parsed, None)
  end.

(** [func (s *IDSet) Scan(value any) error], line 280 *)
Definition Scan (s : IDSet) (value : option Dyn) : M (IDSet * option Err) :=
  match value with
  | None => ret (None, None)
  | Some _ =>
      let idSlice : IDSlice := None in
      let '(idSlice, err) := IDSlice_Scan idSlice value in
      match err with
      | Some e => ret (s, Some e)
      | None => let* set := IDSlice_AsSet idSlice in ret (set, None)
      end
  end.

(** [func (s IDSet) Value() (driver.Value, error)], line 296 *)
Definition Value (s : IDSet) : M (option Dyn * option Err) :=
  if is_nil s then ret (None, None)
  else let* sl := AsSortedSlice s in ret (IDSlice_Value sl).

(** [func (s IDSet) MarshalJSON() ([]byte, error)], line 304 *)
Definition MarshalJSON (s : IDSet) : M (list Byte.byte * option Err) :=
  if is_nil s then ret (GoBytes.of_string "null", None)
  else let* sl := AsSortedSlice s in ret (IDSlice_MarshalJSON sl).

(** [func (s *IDSet) UnmarshalJSON(data []byte) error], line 314 *)
Definition UnmarshalJSON (s : IDSet) (data : list Byte.byte) : M (IDSet * option Err) :=
  if GoBytes.Equal data (GoBytes.of_string "null") then ret (None, None)
  else
    let idSlice : IDSlice := None in
    let '(idSlice, err) := IDSlice_UnmarshalJSON idSlice data in
    match err with
    | Some e => ret (s, Some e)
    | None => let* set := IDSlice_AsSet idSlice in ret (set, None)
    end.

End idset.
End uu.

(** ** The vocabulary of the specifications *)

Section vocabulary.
Context `{Deps}.

(** [m] started in [σ] does not panic, and its result and final state
    satisfy [Q]. *)
Definition wp {A} (m : M A) (σ : runtime) (Q : A → runtime → Prop) : Prop :=
  ∃ a σ', m σ = Some (a, σ') ∧ Q a σ'.

(** The keys of a map value in a store; the nil map has none. *)
Definition contents (h : gmap loc (gset ID)) (s : IDSet) : gset ID :=
  match s with
  | None => ∅
  | Some l => default ∅ (h !! l)
  end.

(** A map value of a Go program is nil or points to an allocated table. *)
Definition valid (h : gmap loc (gset ID)) (s : IDSet) : Prop :=
  match s with
  | None => True
  | Some l => is_Some (h !! l)
  end.

(** [h'] differs from [h] at most in the table at [l]. *)
Definition only_changes (l : loc) (h h' : gmap loc (gset ID)) : Prop :=
  ∃ X, h' = <[l := X]> h.

(** The methods of idset.go that write to their receiver. *)
Inductive mutation : Type :=
  | MAdd (id : ID)
  | MAddSlice (sl : IDSlice)
  | MAddSet (other : IDSet)
  | MDelete (id : ID)
  | MClear
  | MDeleteSlice (sl : IDSlice)
  | MDeleteSet (other : IDSet).

Definition mutate (s : IDSet) (m : mutation) : M unit :=
  match m with
  | MAdd id => uu.Add s id
  | MAddSlice sl => uu.AddSlice s sl
  | MAddSet other => uu.AddSet s other
  | MDelete id => uu.Delete s id
  | MClear => uu.Clear s
  | MDeleteSlice sl => uu.DeleteSlice s sl
  | MDeleteSet other => uu.DeleteSet s other
  end.

(** The calls [ms] made on [s] one after the other. *)
Definition mutate_all (s : IDSet) (ms : list mutation) : M unit :=
  uu.for_range_ ms (mutate s).

(** The map arguments of a call are map values of the store. *)
Definition mutation_valid (h : gmap loc (gset ID)) (m : mutation) : Prop :=
  match m with
  | MAddSet other | MDeleteSet other => valid h other
  | _ => True
  end.

(** [str] is a string [IDFromString] accepts. *)
Definition parses (str : string) : Prop := (IDFromString str).2 = None.

(** The identifiers [IDFromString] reads from the strings. *)
Definition parsed_ids (strs : list string) : list ID :=
  (λ str, (IDFromString str).1) <$> strs.

(** [returns_nil callback ids env env']: called on the identifiers [ids]
    in this order, starting from the environment [env], the callback
    returns nil every time and leaves the environment [env']. *)
Inductive returns_nil {Env} (callback : ID → Env → Env * option Err) :
    list ID → Env → Env → Prop :=
  | returns_nil_done env :
      returns_nil callback [] env env
  | returns_nil_next id ids env env1 env' :
      callback id env = (env1, None) →
      returns_nil callback ids env1 env' →
      returns_nil callback (id :: ids) env env'.

(** The nil slice when there is nothing to hold, as [AsSlice] returns
    it. *)
Definition slice_of (ks : list ID) : IDSlice :=
  match ks with
  | [] => None
  | _ => Some ks
  end.

(** The sorted projection of a set of identifiers. *)
Definition sorted_slice (X : gset ID) : IDSlice :=
  slice_of (merge_sort ID_le (elements X)).

End vocabulary.

(** ** An implementation of the interface on three identifiers

    Used to run the embedding on concrete stores and strings. *)

Module Fixture.
Import GoStrings.

Inductive id3 : Type := idA | idB | idC.

#[global] Instance id3_eq_dec : EqDecision id3.
Proof. solve_decision. Defined.

Definition id3_code (x : id3) : positive :=
  match x with idA => 1 | idB => 2 | idC => 3 end%positive.

Definition id3_of_code (p : positive) : id3 :=
  match p with 1 => idA | 2 => idB | _ => idC end%positive.

#[global] Instance id3_countable : Countable id3.
Proof. by apply (inj_countable' id3_code id3_of_code); intros []. Defined.

Definition id3_String (x : id3) : string :=
  match x with
  | idA => "0b9a2f4e-5c1d-4e7a-9f3b-6d8c2a1e4f70"
  | idB => "5e3c8d1a-7b2f-4a6c-8e9d-1f4b7c2a9d35"
  | idC => "c47f1e92-3a8b-4d5e-b6c1-9e2d7f4a8b16"
  end.

Definition id3_FromString (str : string) : id3 * option string :=
  if String.eqb str (id3_String idA) then (idA, None)
  else if String.eqb str (id3_String idB) then (idB, None)
  else if String.eqb str (id3_String idC) then (idC, None)
  else (idA, Some ("invalid UUID: " +:+ str)).

Definition id3_le (x y : id3) : Prop := (id3_code x ≤ id3_code y)%positive.

#[global] Instance id3_le_dec : RelDecision id3_le.
Proof. intros x y. unfold id3_le. apply _. Defined.

(** Leading and trailing ASCII white space removed. *)
Fixpoint trim_left (s : string) : string :=
  match s with
  | EmptyString => EmptyString
  | String c s' => if Ascii.is_space c then trim_left s' else s
  end.

Definition trim_space (s : string) : string :=
  String.rev (trim_left (String.rev (trim_left s))).

Definition quote : string := String "034" EmptyString.

Definition id3_json (x : id3) : string := quote +:+ id3_String x +:+ quote.

Definition id3_of_json (str : string) : option id3 :=
  if String.eqb str (id3_json idA) then Some idA
  else if String.eqb str (id3_json idB) then Some idB
  else if String.eqb str (id3_json idC) then Some idC
  else None.

Definition id3_of_text (str : string) : option id3 :=
  match id3_FromString str with
  | (x, None) => Some x
  | (_, Some _) => None
  end.

(** A bracketed, comma-separated list read back. *)
Definition decode_list (opening closing : string) (elem : string → option id3)
    (str : string) : option (list id3) :=
  if HasPrefix str opening && HasSuffix str closing then
    match slice str 1 (len str - 1) with
    | Some body =>
        if String.eqb body EmptyString then Some []
        else mapM elem (Split body ",")
    | None => None
    end
  else None.

Definition slice_MarshalJSON (sl : option (list id3)) : list Byte.byte * option string :=
  match sl with
  | None => (GoBytes.of_string "null", None)
  | Some l => (GoBytes.of_string ("[" +:+ Join (id3_json <$> l) "," +:+ "]"), None)
  end.

Definition slice_UnmarshalJSON (recv : option (list id3)) (data : list Byte.byte) :
    option (list id3) * option string :=
  let str := GoBytes.to_string data in
  if String.eqb str "null" then (None, None)
  else match decode_list "[" "]" id3_of_json str with
       | Some l => (Some l, None)
       | None => (recv, Some "invalid JSON array of UUIDs")
       end.

Definition slice_Value (sl : option (list id3)) : option string * option string :=
  match sl with
  | None => (None, None)
  | Some l => (Some ("{" +:+ Join (id3_String <$> l) "," +:+ "}"), None)
  end.

Definition slice_Scan (recv : option (list id3)) (value : option string) :
    option (list id3) * option string :=
  match value with
  | None => (None, None)
  | Some str =>
      match decode_list "{" "}" id3_of_text str with
      | Some l => (Some l, None)
      | None => (recv, Some "invalid UUID array")
      end
  end.

#[local] Instance deps : Deps := {|
  ID := id3;
  IDNil := idA;
  Err := string;
  IDFromString := id3_FromString;
  ID_String := id3_String;
  ID_le := id3_le;
  TrimSpace := trim_space;
  Dyn := string;
  IDSlice_MarshalJSON := slice_MarshalJSON;
  IDSlice_UnmarshalJSON := slice_UnmarshalJSON;
  IDSlice_Value := slice_Value;
  IDSlice_Scan := slice_Scan;
|}.

(** The tables of a store: the set {A, B} at address 1, {B, C} at
    address 2, the empty set at address 3, and {A, B} once more, built in
    the other order, at address 4. *)
Definition tables : gmap loc (gset id3) :=
  {[ 1%positive := {[idA]} ∪ {[idB]}; 2%positive := {[idB]} ∪ {[idC]};
     3%positive := ∅; 4%positive := {[idB]} ∪ {[idA]} ]}.

Definition store : runtime := {| heap := tables; rng := λ n, n |}.

(** In a state, stop at [idB]; the environment lists the identifiers the
    callback was called on, last first. *)
Definition stop_at_B (id : id3) (env : list id3) : list id3 * option string :=
  (id :: env, if decide (id = idB) then Some "stop" else None).

(** The value a computation returns from [store], if it does not panic. *)
Definition run {A} (m : M A) : option A := fst <$> m store.

(** The value and, for a returned set, its elements in ascending order. *)
Definition run_set (m : M (IDSet * option Err)) : option (list ID * bool * option Err) :=
  match m store with
  | Some ((s, err), σ) =>
      Some (merge_sort ID_le (elements (contents (heap σ) s)), uu.IsNull s, err)
  | None => None
  end.

End Fixture.

(** ** Facts about package strings *)

Section strings_facts.
Import GoStrings.

Lemma string_length_app (s t : string) :
  String.length (s +:+ t) = (String.length s + String.length t)%nat.
Proof. induction s as [|c s IH]; simpl; [done|]. by rewrite IH. Qed.

Lemma string_drop_app_length (s t : string) : drop (String.length s) (s +:+ t) = t.
Proof. induction s as [|c s IH]; simpl; [by destruct t|done]. Qed.

Lemma HasPrefix_app (prefix s : string) : HasPrefix (prefix +:+ s) prefix = true.
Proof.
  unfold HasPrefix. induction prefix as [|c p IH]; simpl; [by destruct s|].
  by destruct (ascii_dec c c).
Qed.

Lemma TrimPrefix_app (prefix s : string) : TrimPrefix (prefix +:+ s) prefix = s.
Proof. unfold TrimPrefix. by rewrite HasPrefix_app, string_drop_app_length. Qed.

Lemma HasSuffix_app (s suffix : string) : HasSuffix (s +:+ suffix) suffix = true.
Proof.
  unfold HasSuffix, len. rewrite string_length_app. apply andb_true_iff. split.
  - apply Z.leb_le. lia.
  - replace (String.length s + String.length suffix - String.length suffix)%nat
      with (String.length s) by lia.
    rewrite string_drop_app_length. apply String.eqb_refl.
Qed.

Lemma substring_app (s t : string) : String.substring 0 (String.length s) (s +:+ t) = s.
Proof.
  induction s as [|c s IH]; simpl; [by destruct t|]. by rewrite IH.
Qed.

Lemma HasSuffix_brackets (body : string) : HasSuffix ("[" +:+ body +:+ "]") "]" = true.
Proof. apply (HasSuffix_app ("[" +:+ body) "]"). Qed.

(** [str[1 : len(str)-1]] strips the brackets. *)
Lemma slice_brackets (body : string) :
  let str := "[" +:+ body +:+ "]" in
  slice str 1 (len str - 1) = Some body.
Proof.
  intros str. unfold slice.
  assert (len str = Z.of_nat (String.length body) + 2) as ->.
  { unfold str, len. rewrite !string_length_app. simpl. lia. }
  replace (_ && _ && _) with true
    by (symmetry; repeat (apply andb_true_iff; split); apply Z.leb_le; lia).
  replace (Z.to_nat (Z.of_nat (String.length body) + 2 - 1 - 1))
    with (String.length body) by lia.
  f_equal. apply (substring_app body "]").
Qed.

(** [str[1 : len(str)-1]] strips one byte at each end. *)
Lemma slice_strip_ends (a b : ascii) (body : string) :
  let str := String a (body +:+ String b EmptyString) in
  slice str 1 (len str - 1) = Some body.
Proof.
  intros str. unfold slice.
  assert (len str = Z.of_nat (String.length body) + 2) as ->.
  { unfold str, len. cbn [String.length]. rewrite string_length_app. simpl. lia. }
  replace (_ && _ && _) with true
    by (symmetry; repeat (apply andb_true_iff; split); apply Z.leb_le; lia).
  replace (Z.to_nat (Z.of_nat (String.length body) + 2 - 1 - 1))
    with (String.length body) by lia.
  f_equal. apply (substring_app body (String b EmptyString)).
Qed.

(** Between a leading and a trailing bracket the slice expression of
    [IDSetFromString] is in range. *)
Lemma slice_in_range (str : string) :
  HasPrefix str "[" = true → HasSuffix str "]" = true →
  is_Some (slice str 1 (len str - 1)).
Proof.
  unfold HasPrefix, HasSuffix, slice, len.
  destruct str as [|c [|c' str]]; [done| |].
  - intros Hp [_ Heq]%andb_true_iff. cbn [String.prefix] in Hp.
    destruct (ascii_dec "[" c) as [<-|]; [|discriminate Hp].
    vm_compute in Heq. discriminate Heq.
  - intros _ _. cbn [String.length].
    replace (_ && _ && _) with true; [by eexists|].
    symmetry. repeat (apply andb_true_iff; split); apply Z.leb_le; lia.
Qed.

Lemma Split_no_sep (s : string) (c : ascii) :
  contains_byte s c = false → Split s c = [s].
Proof.
  induction s as [|a s IH]; simpl; [done|].
  intros [Ha Hs]%orb_false_iff. by rewrite Ha, IH.
Qed.

Lemma Split_app (s t : string) (c : ascii) :
  contains_byte s c = false → Split (s +:+ String c t) c = s :: Split t c.
Proof.
  induction s as [|a s IH]; simpl.
  - intros _. by rewrite Ascii.eqb_refl.
  - intros [Ha Hs]%orb_false_iff. by rewrite Ha, IH.
Qed.

(** Splitting what [Join] joined gives the parts back when no part holds
    the separator. *)
Lemma Split_Join (parts : list string) (c : ascii) :
  parts ≠ [] → Forall (λ p, contains_byte p c = false) parts →
  Split (Join parts (String c EmptyString)) c = parts.
Proof.
  intros Hne Hall. induction Hall as [|p parts Hp Hall IH]; [done|].
  destruct parts as [|q parts].
  - simpl. by apply Split_no_sep.
  - change (Join (p :: q :: parts) (String c EmptyString))
      with (p +:+ String c (Join (q :: parts) (String c EmptyString))).
    rewrite Split_app by done. f_equal. by apply IH.
Qed.

Lemma Join_empty (parts : list string) (sep : string) :
  Forall (λ p, p ≠ EmptyString) parts → Join parts sep = EmptyString → parts = [].
Proof.
  intros Hall. destruct Hall as [|p parts Hp Hall]; [done|].
  destruct p as [|a p]; [done|]. by destruct parts.
Qed.

End strings_facts.

(** ** Reasoning about computations *)

Section shuffle_facts.
Context {A : Type}.

Lemma shuffle_Permutation (r : nat → nat) (l : list A) : shuffle r l ≡ₚ l.
Proof.
  revert r. induction l as [|x l IH]; intros r; simpl; [done|].
  rewrite <-Permutation_middle, take_drop. by rewrite IH.
Qed.

(** Every visiting order is drawn by some stream: the model of [range]
    leaves none out. *)
Lemma shuffle_complete (l l' : list A) : l' ≡ₚ l → ∃ r, shuffle r l = l'.
Proof.
  revert l'. induction l as [|x l IH]; intros l' Hp.
  - apply Permutation_nil_r in Hp as ->. by exists (λ _, O).
  - assert (x ∈ l') as Hx by (rewrite Hp; left).
    apply list_elem_of_split in Hx as (l1 & l2 & ->).
    rewrite <-Permutation_middle in Hp. apply (inj (cons x)) in Hp.
    destruct (IH _ Hp) as [r Hr].
    exists (λ i, match i with O => length l1 | S i => r i end). cbn [shuffle].
    change (advance 1 _) with r. rewrite Hr, length_app.
    rewrite Nat.mod_small by lia.
    by rewrite take_app_length, drop_app_length.
Qed.

End shuffle_facts.

Section wp.
Context `{Deps}.

Lemma wp_ret {A} (a : A) σ Q : Q a σ → wp (ret a) σ Q.
Proof. intros HQ. by exists a, σ. Qed.

Lemma wp_bind {A B} (m : M A) (k : A → M B) σ Q :
  wp m σ (λ a σ', wp (k a) σ' Q) → wp (bind m k) σ Q.
Proof.
  intros (a & σ' & Hm & b & σ'' & Hk & HQ).
  exists b, σ''. unfold bind. by rewrite Hm.
Qed.

Lemma wp_mono {A} (m : M A) σ (P Q : A → runtime → Prop) :
  wp m σ P → (∀ a σ', P a σ' → Q a σ') → wp m σ Q.
Proof. intros (a & σ' & Hm & HP) HPQ. exists a, σ'. auto. Qed.

Lemma wp_inv {A} (m : M A) σ Q a σ' :
  wp m σ Q → m σ = Some (a, σ') → Q a σ'.
Proof. intros (a' & σ'' & Hm & HQ) Hm'. congruence. Qed.

Lemma wp_must {A} (o : option A) a σ Q : o = Some a → Q a σ → wp (must o) σ Q.
Proof. intros -> HQ. by apply wp_ret. Qed.

Lemma wp_table l X σ Q : heap σ !! l = Some X → Q X σ → wp (table l) σ Q.
Proof. intros Hl HQ. exists X, σ. unfold table. by rewrite Hl. Qed.

Lemma valid_contents h l : valid h (Some l) → h !! l = Some (contents h (Some l)).
Proof. intros [X HX]. simpl. by rewrite HX. Qed.

Lemma wp_make_IDSet σ Q :
  (∀ l, heap σ !! l = None → Q (Some l) (set_heap <[l := ∅]> σ)) →
  wp make_IDSet σ Q.
Proof.
  intros HQ. eexists _, _. split; [done|]. apply HQ.
  apply not_elem_of_dom, is_fresh.
Qed.

Lemma wp_map_len s σ Q :
  valid (heap σ) s → Q (size (contents (heap σ) s)) σ → wp (map_len s) σ Q.
Proof.
  destruct s as [l|]; intros Hv HQ.
  - apply wp_bind, (wp_table _ _ _ _ (valid_contents _ _ Hv)). by apply wp_ret.
  - by apply wp_ret.
Qed.

Lemma wp_map_lookup s id σ Q :
  valid (heap σ) s → Q (bool_decide (id ∈ contents (heap σ) s)) σ →
  wp (map_lookup s id) σ Q.
Proof.
  destruct s as [l|]; intros Hv HQ.
  - apply wp_bind, (wp_table _ _ _ _ (valid_contents _ _ Hv)). by apply wp_ret.
  - apply wp_ret. by rewrite bool_decide_eq_false_2 in HQ by set_solver.
Qed.

Lemma wp_map_store l id σ Q :
  valid (heap σ) (Some l) →
  Q tt (set_heap <[l := {[id]} ∪ contents (heap σ) (Some l)]> σ) →
  wp (map_store (Some l) id) σ Q.
Proof.
  intros Hv HQ.
  apply wp_bind, (wp_table _ _ _ _ (valid_contents _ _ Hv)). by eexists _, _.
Qed.

Lemma wp_map_delete s id σ Q :
  valid (heap σ) s →
  Q tt (match s with
        | None => σ
        | Some l => set_heap <[l := contents (heap σ) s ∖ {[id]}]> σ
        end) →
  wp (map_delete s id) σ Q.
Proof.
  destruct s as [l|]; intros Hv HQ.
  - apply wp_bind, (wp_table _ _ _ _ (valid_contents _ _ Hv)). by eexists _, _.
  - by apply wp_ret.
Qed.

Lemma wp_map_clear s σ Q :
  valid (heap σ) s →
  Q tt (match s with None => σ | Some l => set_heap <[l := ∅]> σ end) →
  wp (map_clear s) σ Q.
Proof.
  destruct s as [l|]; intros Hv HQ.
  - apply wp_bind, (wp_table _ _ _ _ (valid_contents _ _ Hv)). by eexists _, _.
  - by apply wp_ret.
Qed.

Lemma wp_map_range s σ Q :
  valid (heap σ) s →
  (∀ ks r, ks ≡ₚ elements (contents (heap σ) s) → Q ks (set_rng (λ _, r) σ)) →
  wp (map_range s) σ Q.
Proof.
  destruct s as [l|]; intros Hv HQ.
  - apply wp_bind, (wp_table _ _ _ _ (valid_contents _ _ Hv)).
    eexists _, _. split; [done|]. apply HQ, shuffle_Permutation.
  - apply wp_ret. specialize (HQ [] (rng σ)). destruct σ.
    apply HQ. simpl. by rewrite elements_empty.
Qed.

Lemma wp_maps_Clone l σ Q :
  valid (heap σ) (Some l) →
  (∀ l', heap σ !! l' = None →
     Q (Some l') (set_heap <[l' := contents (heap σ) (Some l)]> σ)) →
  wp (maps_Clone (Some l)) σ Q.
Proof.
  intros Hv HQ.
  apply wp_bind, (wp_table _ _ _ _ (valid_contents _ _ Hv)).
  eexists _, _. split; [done|]. apply HQ, not_elem_of_dom, is_fresh.
Qed.

(** The loop rule.  [Inv done st σ] holds when the keys [done] have been
    visited; a body that returns establishes the postcondition itself. *)
Lemma wp_for_range {A S R} (Inv : list A → S → runtime → Prop)
    (ks : list A) (body : A → S → M (control S R)) st σ Q :
  Inv [] st σ →
  (∀ done k rest st σ, ks = done ++ k :: rest → Inv done st σ →
     wp (body k st) σ (λ c σ',
       match c with
       | Continue st' => Inv (done ++ [k]) st' σ'
       | Return r => Q (Return r) σ'
       end)) →
  (∀ st σ, Inv ks st σ → Q (Continue st) σ) →
  wp (for_range ks body st) σ Q.
Proof.
  intros H0 Hbody Hend.
  cut (∀ rest done st σ, ks = done ++ rest → Inv done st σ →
         wp (for_range rest body st) σ Q).
  { intros Hcut. by apply (Hcut ks []). }
  clear H0 st σ. induction rest as [|k rest IH]; intros done st σ Hks HI; simpl.
  - apply wp_ret, Hend. by rewrite Hks, app_nil_r.
  - apply wp_bind. eapply wp_mono; [by apply (Hbody done k rest)|].
    intros [st'|r] σ' Hc; simpl.
    + apply (IH (done ++ [k])); [|done]. by rewrite <-app_assoc.
    + by apply wp_ret.
Qed.

Lemma wp_for_range_ {A} (Inv : list A → runtime → Prop)
    (ks : list A) (body : A → M unit) σ Q :
  Inv [] σ →
  (∀ done k rest σ, ks = done ++ k :: rest → Inv done σ →
     wp (body k) σ (λ _ σ', Inv (done ++ [k]) σ')) →
  (∀ σ, Inv ks σ → Q tt σ) →
  wp (uu.for_range_ ks body) σ Q.
Proof.
  intros H0 Hbody Hend. apply wp_bind.
  apply (wp_for_range (λ done _ σ, Inv done σ)); [done| |].
  - intros done k rest [] σ0 Hks HI. apply wp_bind.
    eapply wp_mono; [by apply (Hbody done k rest)|].
    intros [] σ' HI'. by apply wp_ret.
  - intros [] σ0 HI. by apply wp_ret, Hend.
Qed.

End wp.

(** ** Specifications of the methods *)

Section specs.
Context `{Deps}.

Lemma set_rng_id σ : set_rng (λ _, rng σ) σ = σ.
Proof. by destruct σ. Qed.

(** Allocating or overwriting the table at [l] leaves the other map
    values as they were. *)
Lemma valid_insert h l X s : valid h s → valid (<[l := X]> h) s.
Proof.
  destruct s as [l'|]; simpl; [|done]. intros Hv.
  rewrite lookup_insert. by case_decide.
Qed.

Lemma contents_insert_ne h l X s : s ≠ Some l → contents (<[l := X]> h) s = contents h s.
Proof.
  destruct s as [l'|]; simpl; [|done]. intros Hne.
  rewrite lookup_insert_ne; [done|congruence].
Qed.

Lemma contents_insert h l X : contents (<[l := X]> h) (Some l) = X.
Proof. simpl. by rewrite lookup_insert_eq. Qed.

Lemma valid_fresh_ne h l s : h !! l = None → valid h s → s ≠ Some l.
Proof. intros Hl Hv ->. destruct Hv as [X HX]. congruence. Qed.

Lemma wp_Contains s id σ Q :
  valid (heap σ) s → Q (bool_decide (id ∈ contents (heap σ) s)) σ →
  wp (uu.Contains s id) σ Q.
Proof.
  intros Hv HQ. unfold uu.Contains. destruct s as [l|]; cbn [uu.is_nil].
  - by apply wp_map_lookup.
  - by apply (wp_map_lookup None id).
Qed.

Lemma wp_IsEmpty s σ Q :
  valid (heap σ) s → Q (bool_decide (contents (heap σ) s = ∅)) σ →
  wp (uu.IsEmpty s) σ Q.
Proof.
  intros Hv HQ. apply wp_bind, wp_map_len; [done|]. apply wp_ret.
  destruct (decide (contents (heap σ) s = ∅)) as [He|Hne].
  - rewrite bool_decide_eq_true_2 in HQ by done. by rewrite He, size_empty.
  - rewrite bool_decide_eq_false_2 in HQ by done.
    assert (size (contents (heap σ) s) ≠ 0%nat) as Hsz.
    { intros Hz%size_empty_inv. by apply Hne, leibniz_equiv. }
    by destruct (size (contents (heap σ) s)).
Qed.

Lemma wp_Equal s other σ Q :
  valid (heap σ) s → valid (heap σ) other →
  (∀ r, Q (bool_decide (contents (heap σ) s = contents (heap σ) other))
          (set_rng (λ _, r) σ)) →
  wp (uu.Equal s other) σ Q.
Proof.
  intros Hs Ho HQ. unfold uu.Equal.
  apply wp_bind, wp_map_len; [done|]. apply wp_bind, wp_map_len; [done|].
  remember (contents (heap σ) s) as X eqn:HX.
  remember (contents (heap σ) other) as Y eqn:HY.
  destruct (size X =? size Y)%nat eqn:Hsz; simpl.
  - apply Nat.eqb_eq in Hsz.
    apply wp_bind, wp_map_range; [done|]. intros ks r Hks. rewrite <-HX in Hks.
    apply wp_bind.
    apply (wp_for_range (λ done _ σ', σ' = set_rng (λ _, r) σ ∧ Forall (.∈ Y) done)).
    + by split.
    + intros done k rest [] σ' Hsplit [-> Hdone].
      apply wp_bind, wp_Contains; [done|]. simpl. rewrite <-HY.
      destruct (bool_decide_reflect (k ∈ Y)) as [Hk|Hk]; simpl; apply wp_ret.
      * split; [done|]. apply Forall_app. split; [done|]. by constructor.
      * apply wp_ret. specialize (HQ r).
        rewrite bool_decide_eq_false_2 in HQ; [done|].
        assert (k ∈ X) as HkX.
        { apply elem_of_elements. rewrite <-Hks, Hsplit. set_solver. }
        congruence.
    + intros [] σ' [-> Hall]. apply wp_ret. specialize (HQ r).
      rewrite bool_decide_eq_true_2 in HQ; [done|].
      apply set_subseteq_size_eq; [|lia].
      intros x Hx. apply elem_of_elements in Hx. rewrite <-Hks in Hx.
      by eapply Forall_forall in Hall.
  - apply Nat.eqb_neq in Hsz. apply wp_ret. specialize (HQ (rng σ)).
    rewrite set_rng_id in HQ.
    rewrite bool_decide_eq_false_2 in HQ; [done|]. congruence.
Qed.

(** One loop of [Diff]: the keys of [ks] that [other] lacks are added to
    the table at [l]. *)
Lemma wp_Diff_loop l other ks D σ Q :
  heap σ !! l = Some D → valid (heap σ) other → other ≠ Some l →
  (∀ σ', heap σ' = <[l := D ∪ (list_to_set ks ∖ contents (heap σ) other)]> (heap σ) →
     Q tt σ') →
  wp (uu.for_range_ ks (λ id,
        let* c := uu.Contains other id in
        if negb c then uu.Add (Some l) id else ret tt)) σ Q.
Proof.
  intros Hl Ho Hne HQ. remember (contents (heap σ) other) as C eqn:HC.
  apply (wp_for_range_
    (λ done σ', heap σ' = <[l := D ∪ (list_to_set done ∖ C)]> (heap σ))).
  - rewrite insert_id; [done|]. rewrite Hl. f_equal. set_solver.
  - intros done k rest σ' _ HI.
    apply wp_bind, wp_Contains.
    { rewrite HI. by apply valid_insert. }
    assert (contents (heap σ') other = C) as ->.
    { by rewrite HI, contents_insert_ne. }
    destruct (bool_decide_reflect (k ∈ C)) as [Hk|Hk]; simpl.
    + apply wp_ret. rewrite HI. f_equal.
      rewrite list_to_set_app_L. set_solver.
    + apply wp_map_store.
      { rewrite HI. simpl. by rewrite lookup_insert_eq. }
      unfold set_heap; cbn [heap].
      rewrite HI, contents_insert, insert_insert_eq. f_equal.
      rewrite list_to_set_app_L. set_solver.
  - done.
Qed.

Lemma wp_Diff s other σ Q :
  valid (heap σ) s → valid (heap σ) other →
  (∀ l σ', heap σ !! l = None →
     heap σ' = <[l := (contents (heap σ) s ∖ contents (heap σ) other) ∪
                      (contents (heap σ) other ∖ contents (heap σ) s)]> (heap σ) →
     Q (Some l) σ') →
  wp (uu.Diff s other) σ Q.
Proof.
  intros Hs Ho HQ. unfold uu.Diff.
  apply wp_bind, wp_make_IDSet. intros l Hl.
  pose proof (valid_fresh_ne _ _ _ Hl Hs) as Hsl.
  pose proof (valid_fresh_ne _ _ _ Hl Ho) as Hol.
  apply wp_bind, wp_map_range; [by apply valid_insert|]. intros ks r Hks.
  simpl in Hks. rewrite contents_insert_ne in Hks by done.
  apply wp_bind, (wp_Diff_loop _ _ _ ∅).
  { simpl. by rewrite lookup_insert_eq. }
  { by apply valid_insert. }
  { done. }
  simpl. intros σ1 H1.
  rewrite contents_insert_ne, insert_insert_eq in H1 by done.
  apply wp_bind, wp_map_range.
  { rewrite H1. by apply valid_insert. }
  intros ks' r' Hks'. rewrite H1, contents_insert_ne in Hks' by done.
  apply wp_bind, (wp_Diff_loop _ _ _ (∅ ∪ (list_to_set ks ∖ contents (heap σ) other))).
  { simpl. by rewrite H1, lookup_insert_eq. }
  { simpl. rewrite H1. by apply valid_insert. }
  { done. }
  simpl. intros σ2 H2.
  rewrite H1, contents_insert_ne, insert_insert_eq in H2 by done.
  apply wp_ret, HQ; [done|]. rewrite H2. f_equal.
  assert (list_to_set ks = contents (heap σ) s) as ->.
  { rewrite Hks. apply list_to_set_elements_L. }
  assert (list_to_set ks' = contents (heap σ) other) as ->.
  { rewrite Hks'. apply list_to_set_elements_L. }
  set_solver.
Qed.

Lemma only_changes_refl h l : valid h (Some l) → only_changes l h h.
Proof. intros [X HX]. exists X. by rewrite insert_id. Qed.

Lemma only_changes_insert h h' l X :
  only_changes l h h' → only_changes l h (<[l := X]> h').
Proof. intros [Y ->]. exists X. by rewrite insert_insert_eq. Qed.

Lemma only_changes_valid h h' l s : only_changes l h h' → valid h s → valid h' s.
Proof. intros [X ->]. apply valid_insert. Qed.

Lemma only_changes_valid_self h h' l : only_changes l h h' → valid h' (Some l).
Proof. intros [X ->]. simpl. by rewrite lookup_insert_eq. Qed.

Lemma only_changes_contents h h' l s :
  only_changes l h h' → s ≠ Some l → contents h' s = contents h s.
Proof. intros [X ->]. apply contents_insert_ne. Qed.

(** A loop whose body writes to the table at [l] only writes to the
    table at [l] only. *)
Lemma wp_only_changes_loop {A} l h (ks : list A) (body : A → M unit) σ Q :
  only_changes l h (heap σ) →
  (∀ k σ', k ∈ ks → only_changes l h (heap σ') →
     wp (body k) σ' (λ _ σ'', only_changes l h (heap σ''))) →
  (∀ σ', only_changes l h (heap σ') → Q tt σ') →
  wp (uu.for_range_ ks body) σ Q.
Proof.
  intros H0 Hbody HQ.
  apply (wp_for_range_ (λ _ σ', only_changes l h (heap σ'))); [done| |done].
  intros done k rest σ' -> HI. apply Hbody; [set_solver|done].
Qed.

Lemma wp_map_store_only_changes l h id σ :
  only_changes l h (heap σ) →
  wp (map_store (Some l) id) σ (λ _ σ', only_changes l h (heap σ')).
Proof.
  intros Hc. apply wp_map_store; [by eapply only_changes_valid_self|].
  by apply only_changes_insert.
Qed.

Lemma wp_map_delete_only_changes l h id σ :
  only_changes l h (heap σ) →
  wp (map_delete (Some l) id) σ (λ _ σ', only_changes l h (heap σ')).
Proof.
  intros Hc. apply wp_map_delete; [by eapply only_changes_valid_self|].
  by apply only_changes_insert.
Qed.

(** Every mutating method writes to the table of its receiver and to no
    other. *)
Lemma wp_mutate l h m σ Q :
  only_changes l h (heap σ) → mutation_valid (heap σ) m →
  (∀ σ', only_changes l h (heap σ') → Q tt σ') →
  wp (mutate (Some l) m) σ Q.
Proof.
  intros Hc Hm HQ. destruct m as [id|sl|other|id| |sl|other]; simpl in *.
  - eapply wp_mono; [by apply wp_map_store_only_changes|]. intros [] σ'; apply HQ.
  - apply (wp_only_changes_loop l h); [done| |done].
    intros k σ' _ Hc'. by apply wp_map_store_only_changes.
  - apply wp_bind, wp_map_range; [done|]. intros ks r _.
    apply (wp_only_changes_loop l h); [done| |done].
    intros k σ' _ Hc'. by apply wp_map_store_only_changes.
  - eapply wp_mono; [by apply wp_map_delete_only_changes|]. intros [] σ'; apply HQ.
  - apply (wp_map_clear (Some l)); [by eapply only_changes_valid_self|].
    by apply HQ, only_changes_insert.
  - apply (wp_only_changes_loop l h); [done| |done].
    intros k σ' _ Hc'. by apply wp_map_delete_only_changes.
  - apply wp_bind, wp_map_range; [done|]. intros ks r _.
    apply (wp_only_changes_loop l h); [done| |done].
    intros k σ' _ Hc'. by apply wp_map_delete_only_changes.
Qed.

Lemma wp_mutate_all l ms σ Q :
  valid (heap σ) (Some l) → Forall (mutation_valid (heap σ)) ms →
  (∀ σ', only_changes l (heap σ) (heap σ') → Q tt σ') →
  wp (mutate_all (Some l) ms) σ Q.
Proof.
  intros Hv Hms HQ.
  apply (wp_only_changes_loop l (heap σ)); [by apply only_changes_refl| |done].
  intros m σ' Hm Hc. apply (wp_mutate l (heap σ)); [done| |done].
  eapply Forall_forall in Hms; [|done].
  destruct m; simpl in *; try done; by eapply only_changes_valid.
Qed.

Lemma wp_Clone l σ Q :
  valid (heap σ) (Some l) →
  (∀ l', heap σ !! l' = None →
     Q (Some l') (set_heap <[l' := contents (heap σ) (Some l)]> σ)) →
  wp (uu.Clone (Some l)) σ Q.
Proof. intros Hv HQ. by apply wp_maps_Clone. Qed.

Lemma slice_ids_slice_of ks : uu.slice_ids (slice_of ks) = ks.
Proof. by destruct ks. Qed.

Lemma wp_AsSlice s σ Q :
  valid (heap σ) s →
  (∀ ks r, ks ≡ₚ elements (contents (heap σ) s) →
     Q (slice_of ks) (set_rng (λ _, r) σ)) →
  wp (uu.AsSlice s) σ Q.
Proof.
  intros Hv HQ. unfold uu.AsSlice.
  apply wp_bind, wp_map_len; [done|].
  remember (contents (heap σ) s) as X eqn:HX.
  destruct (size X =? 0)%nat eqn:Hsz.
  - apply Nat.eqb_eq, size_empty_inv, leibniz_equiv in Hsz. apply wp_ret.
    specialize (HQ [] (rng σ)). rewrite set_rng_id in HQ. apply HQ.
    by rewrite Hsz, elements_empty.
  - apply Nat.eqb_neq in Hsz.
    apply wp_bind, wp_map_range; [done|]. intros ks r Hks. rewrite <-HX in Hks.
    assert (length ks = size X) as Hlen by by rewrite Hks.
    apply wp_bind.
    apply (wp_for_range (λ done '(sl, i) σ',
      σ' = set_rng (λ _, r) σ ∧ i = length done ∧
      sl = done ++ replicate (size X - length done) IDNil)).
    + split; [done|]. split; [done|]. simpl. f_equal. lia.
    + intros done k rest [sl i] σ' Hsplit (-> & -> & ->).
      assert (length done < size X)%nat as Hlt.
      { rewrite <-Hlen, Hsplit, length_app. simpl. lia. }
      apply wp_bind. unfold slice_store.
      rewrite decide_True by (rewrite length_app, length_replicate; lia).
      apply wp_ret, wp_ret. split; [done|]. split.
      { rewrite length_app. simpl. lia. }
      rewrite insert_app_r_alt, Nat.sub_diag by lia.
      destruct (size X - length done)%nat as [|m] eqn:Hm; [lia|]. simpl.
      rewrite <-app_assoc, length_app. simpl. do 3 f_equal. lia.
    + intros [sl i] σ' (-> & -> & ->). apply wp_ret.
      rewrite Hlen, Nat.sub_diag, app_nil_r.
      specialize (HQ ks r Hks). destruct ks; [|done]. simpl in Hlen. lia.
Qed.

Lemma wp_AsSortedSlice s σ Q :
  valid (heap σ) s →
  (∀ ks r, ks ≡ₚ elements (contents (heap σ) s) →
     Q (slice_of (merge_sort ID_le ks)) (set_rng (λ _, r) σ)) →
  wp (uu.AsSortedSlice s) σ Q.
Proof.
  intros Hv HQ. apply wp_bind, wp_AsSlice; [done|]. intros ks r Hks.
  apply wp_ret. specialize (HQ ks r Hks).
  destruct ks as [|k ks]; [done|]. simpl.
  destruct (merge_sort ID_le (k :: ks)) as [|k' ks'] eqn:Hsort; [|done].
  pose proof (merge_sort_Permutation ID_le (k :: ks)) as Hp.
  rewrite Hsort in Hp. by apply Permutation_nil_cons in Hp.
Qed.

Lemma wp_IDSlice_AsSet sl σ Q :
  (∀ l σ', heap σ !! l = None →
     heap σ' = <[l := list_to_set (uu.slice_ids sl)]> (heap σ) → Q (Some l) σ') →
  wp (uu.IDSlice_AsSet sl) σ Q.
Proof.
  intros HQ. apply wp_bind, wp_make_IDSet. intros l Hl. apply wp_bind.
  apply (wp_for_range_ (λ done σ', heap σ' = <[l := list_to_set done]> (heap σ))).
  - done.
  - intros done k rest σ' _ HI. apply wp_map_store.
    { rewrite HI. simpl. by rewrite lookup_insert_eq. }
    unfold set_heap; cbn [heap].
    rewrite HI, contents_insert, insert_insert_eq. f_equal.
    rewrite list_to_set_app_L. set_solver.
  - intros σ' HI. by apply wp_ret, HQ.
Qed.

Lemma wp_MakeIDSetFromStrings strs σ Q :
  (∀ l σ', heap σ !! l = None → Forall parses strs →
     heap σ' = <[l := list_to_set (parsed_ids strs)]> (heap σ) →
     Q (Some l, None) σ') →
  (∀ pre bad post e l X σ', strs = pre ++ bad :: post → Forall parses pre →
     (IDFromString bad).2 = Some e →
     heap σ !! l = None → heap σ' = <[l := X]> (heap σ) →
     Q (None, Some e) σ') →
  wp (uu.MakeIDSetFromStrings strs) σ Q.
Proof.
  intros Hok Hbad. apply wp_bind, wp_make_IDSet. intros l Hl. apply wp_bind.
  apply (wp_for_range (λ done _ σ',
    Forall parses done ∧ heap σ' = <[l := list_to_set (parsed_ids done)]> (heap σ))).
  - by split.
  - intros done k rest [] σ' Hsplit [Hdone HI].
    unfold parsed_ids in *.
    destruct (IDFromString k) as [id [e|]] eqn:Hk.
    + apply wp_ret, wp_ret. eapply (Hbad done k rest); [done..| |done|done].
      by rewrite Hk.
    + apply wp_bind, wp_map_store.
      { rewrite HI. simpl. by rewrite lookup_insert_eq. }
      apply wp_ret. split.
      { apply Forall_app. split; [done|]. constructor; [|done].
        unfold parses. by rewrite Hk. }
      unfold set_heap; cbn [heap].
      rewrite HI, contents_insert, insert_insert_eq. f_equal.
      rewrite fmap_app, list_to_set_app_L. simpl. rewrite Hk. set_solver.
  - intros [] σ' [Hall HI]. by apply wp_ret, Hok.
Qed.

Lemma wp_ForEach {Env} s (callback : ID → Env → Env * option Err) env σ Q :
  valid (heap σ) s →
  (∀ vis env' rn,
     vis ≡ₚ elements (contents (heap σ) s) →
     returns_nil callback vis env env' →
     Q (env', None) (set_rng (λ _, rn) σ)) →
  (∀ pre id rest env1 env' e rn,
     pre ++ id :: rest ≡ₚ elements (contents (heap σ) s) →
     returns_nil callback pre env env1 →
     callback id env1 = (env', Some e) →
     Q (env', Some e) (set_rng (λ _, rn) σ)) →
  wp (uu.ForEach s callback env) σ Q.
Proof.
  intros Hv Hnil Hstop. apply wp_bind, wp_map_range; [done|]. intros ks rn Hks.
  apply wp_bind.
  cut (∀ todo env0, wp
    (for_range todo (λ id env1,
       let '(env2, err) := callback id env1 in
       match err with
       | Some e => ret (Return (env2, Some e))
       | None => ret (Continue env2)
       end) env0) (set_rng (λ _, rn) σ)
    (λ c σ', σ' = set_rng (λ _, rn) σ ∧
       ((∃ env', c = Continue env' ∧ returns_nil callback todo env0 env') ∨
        (∃ pre id rest env1 env' e,
           c = Return (env', Some e) ∧ todo = pre ++ id :: rest ∧
           returns_nil callback pre env0 env1 ∧
           callback id env1 = (env', Some e))))).
  { intros Hcut. eapply wp_mono; [apply (Hcut ks env)|].
    intros c σ' [-> [(env' & -> & Hall)|(pre & id & rest & env1 & env' & e & -> & -> & Hpre & Hid)]];
      apply wp_ret; eauto. }
  clear. induction todo as [|id todo IH]; intros env0; simpl.
  - apply wp_ret. split; [done|]. left. exists env0. split; [done|constructor].
  - destruct (callback id env0) as [env1 [e|]] eqn:Hcb.
    + apply wp_bind, wp_ret, wp_ret. split; [done|]. right.
      exists [], id, todo, env0, env1, e. repeat split; [constructor|done].
    + apply wp_bind, wp_ret. eapply wp_mono; [apply IH|].
      intros c σ' [-> [(env' & -> & Hall)|(pre & id' & rest & env2 & env' & e & -> & -> & Hpre & Hid)]].
      * split; [done|]. left. exists env'. split; [done|]. by econstructor.
      * split; [done|]. right. exists (id :: pre), id', rest, env2, env', e.
        repeat split; [by econstructor|done].
Qed.

(** What [Diff] returns, and what it leaves alone: every map value of the
    store it started in. *)
Lemma Diff_result s other σ :
  valid (heap σ) s → valid (heap σ) other →
  wp (uu.Diff s other) σ (λ d σ',
    uu.IsNull d = false ∧ valid (heap σ') d ∧
    (∀ t, valid (heap σ) t →
       valid (heap σ') t ∧ contents (heap σ') t = contents (heap σ) t) ∧
    contents (heap σ') d =
      (contents (heap σ) s ∖ contents (heap σ) other) ∪
      (contents (heap σ) other ∖ contents (heap σ) s)).
Proof.
  intros Hs Ho. apply wp_Diff; [done..|]. intros l σ' Hl ->.
  split; [done|]. split; [simpl; by rewrite lookup_insert_eq|]. split.
  - intros t Ht. split; [by apply valid_insert|].
    apply contents_insert_ne. by eapply valid_fresh_ne.
  - by rewrite contents_insert.
Qed.

Lemma wp_String s σ Q :
  valid (heap σ) s →
  (∀ ks r, ks ≡ₚ elements (contents (heap σ) s) →
     Q ("set" +:+ uu.IDSlice_String (slice_of (merge_sort ID_le ks)))
       (set_rng (λ _, r) σ)) →
  wp (uu.String s) σ Q.
Proof.
  intros Hv HQ. apply wp_bind, wp_AsSortedSlice; [done|]. intros ks r Hks.
  by apply wp_ret, HQ.
Qed.

(** The result of [Equal], read off a run of it. *)
Lemma Equal_true_contents s other σ :
  valid (heap σ) s → valid (heap σ) other →
  wp (uu.Equal s other) σ (λ eq _, eq = true) →
  contents (heap σ) s = contents (heap σ) other.
Proof.
  intros Hs Ho (eq & σ' & Hrun & ->).
  assert (wp (uu.Equal s other) σ (λ eq _,
    eq = bool_decide (contents (heap σ) s = contents (heap σ) other))) as Hwp
    by by apply wp_Equal.
  apply (wp_inv _ _ _ _ _ Hwp) in Hrun. symmetry in Hrun.
  by apply bool_decide_eq_true in Hrun.
Qed.

(** [IDSetFromString] returns on every string: it does not panic. *)
Lemma IDSetFromString_returns (str : string) (σ : runtime) :
  wp (uu.IDSetFromString str) σ (λ _ _, True).
Proof.
  unfold uu.IDSetFromString.
  set (str' := GoStrings.TrimPrefix str "set").
  assert (∀ str0 σ0, wp
    (if String.eqb str0 EmptyString then ret (None, None)
     else uu.MakeIDSetFromStrings (TrimSpace <$> GoStrings.Split str0 ","))
    σ0 (λ _ _, True)) as Hrest.
  { intros str0 σ0. destruct (String.eqb str0 EmptyString); [by apply wp_ret|].
    by apply wp_MakeIDSetFromStrings. }
  destruct (GoStrings.HasPrefix str' "[") eqn:Hpre;
    [destruct (GoStrings.HasSuffix str' "]") eqn:Hsuf|]; cbn [andb].
  - destruct (slice_in_range str' Hpre Hsuf) as [body Hbody].
    apply wp_bind, (wp_must _ body); [done|]. apply Hrest.
  - destruct (_ || _); [by apply wp_ret|]. apply Hrest.
  - destruct (_ || _); [by apply wp_ret|]. apply Hrest.
Qed.

End specs.



(** ** The claims *)

Section claims.
Context `{Deps}.

(** C1 (as amended): parsing the canonical text [set[]] with
    [IDSetFromString] succeeds and yields the nil set, in any state and
    without changing it: the result has [IsNull() == true] and
    [IsEmpty() == true].  The brackets are stripped, the remainder is
    empty, and the guard [if str == ""] returns [nil, nil]. *)
Theorem IDSetFromString_empty_brackets_is_null (σ : runtime) :
  ∃ s, uu.IDSetFromString "set[]" σ = Some ((s, None), σ) ∧
       uu.IsNull s = true ∧
       uu.IsEmpty s σ = Some (true, σ).
Proof. by exists None. Qed.

(** C4: the nil set marshals to the JSON token [null] and to the SQL
    value NULL; unmarshalling the token [null] and scanning a nil value
    store the nil set in the target variable, whatever set it held
    before, and leave every table of the store as it was. *)
Theorem null_set_encodes_and_decodes_as_null (target : IDSet) (σ : runtime) :
  uu.MarshalJSON None σ = Some ((GoBytes.of_string "null", None), σ) ∧
  uu.Value None σ = Some ((None, None), σ) ∧
  (∃ s, uu.UnmarshalJSON target (GoBytes.of_string "null") σ = Some ((s, None), σ) ∧
        uu.IsNull s = true) ∧
  (∃ s, uu.Scan target None σ = Some ((s, None), σ) ∧ uu.IsNull s = true).
Proof. repeat split; by exists None. Qed.

(** C5: [MakeIDSetFromStrings] never panics and is atomic.  Either every
    string parses, and it returns no error and a new set holding exactly
    the parsed identifiers; or it returns the nil set together with the
    error [IDFromString] gave for the first string that does not parse. *)
Theorem MakeIDSetFromStrings_atomic (strs : list string) (σ : runtime) :
  wp (uu.MakeIDSetFromStrings strs) σ (λ '(s, err) σ',
    (Forall parses strs ∧ err = None ∧
     ∃ l, s = Some l ∧ heap σ !! l = None ∧
          heap σ' = <[l := list_to_set (parsed_ids strs)]> (heap σ)) ∨
    (∃ pre bad post e,
       strs = pre ++ bad :: post ∧ Forall parses pre ∧
       (IDFromString bad).2 = Some e ∧
       s = None ∧ err = Some e)).
Proof.
  apply wp_MakeIDSetFromStrings.
  - intros l σ' Hl Hall Hσ'. left. eauto 10.
  - intros pre bad post e l X σ' Hsplit Hpre Hbad _ _. right. eauto 10.
Qed.

(** C8: [Contains] called on a null set, one of which [IsNull] is true,
    returns false for every identifier, in any state; it does not panic
    and changes nothing. *)
Theorem Contains_nil_false (s : IDSet) (id : ID) (σ : runtime) :
  uu.IsNull s = true →
  uu.Contains s id σ = Some (false, σ).
Proof. intros Hnull. destruct s as [l|]; [discriminate Hnull|reflexivity]. Qed.

(** C3: [Diff] never panics and returns a new, non-nil set holding the
    symmetric difference of its operands, which it leaves unchanged: an
    identifier is in the result exactly when it is in one operand and not
    in the other.  Hence [Diff(A, B)] is [Equal] to [Diff(B, A)] and
    [Diff(A, A)] is empty. *)
Theorem Diff_symmetric_difference (A B : IDSet) (σ : runtime) :
  valid (heap σ) A → valid (heap σ) B →
  wp (uu.Diff A B) σ (λ d σ',
    uu.IsNull d = false ∧
    contents (heap σ') d =
      (contents (heap σ) A ∖ contents (heap σ) B) ∪
      (contents (heap σ) B ∖ contents (heap σ) A) ∧
    contents (heap σ') A = contents (heap σ) A ∧
    contents (heap σ') B = contents (heap σ) B) ∧
  (∀ id, wp (let* d := uu.Diff A B in
             let* inD := uu.Contains d id in
             let* inA := uu.Contains A id in
             let* inB := uu.Contains B id in
             ret (inD, inA, inB)) σ
            (λ '(inD, inA, inB) _, inD = xorb inA inB)) ∧
  wp (let* d1 := uu.Diff A B in
      let* d2 := uu.Diff B A in
      uu.Equal d1 d2) σ (λ eq _, eq = true) ∧
  wp (let* d := uu.Diff A A in uu.IsEmpty d) σ (λ empty _, empty = true).
Proof.
  intros HA HB. repeat split.
  - eapply wp_mono; [by apply Diff_result|].
    intros d σ' (Hnull & _ & Hframe & Hd).
    destruct (Hframe A HA) as [_ ->]. by destruct (Hframe B HB) as [_ ->].
  - intros id. apply wp_bind.
    eapply wp_mono; [by apply Diff_result|].
    intros d σ' (_ & Hd & Hframe & Hcd).
    destruct (Hframe A HA) as [HA' HcA]. destruct (Hframe B HB) as [HB' HcB].
    apply wp_bind, wp_Contains; [done|].
    apply wp_bind, wp_Contains; [done|].
    apply wp_bind, wp_Contains; [done|]. apply wp_ret.
    rewrite Hcd, HcA, HcB.
    repeat case_bool_decide; simpl; set_solver.
  - apply wp_bind. eapply wp_mono; [by apply Diff_result|].
    intros d1 σ1 (_ & Hd1 & Hframe1 & Hcd1).
    destruct (Hframe1 A HA) as [HA1 HcA1]. destruct (Hframe1 B HB) as [HB1 HcB1].
    apply wp_bind. eapply wp_mono; [by apply Diff_result|].
    intros d2 σ2 (_ & Hd2 & Hframe2 & Hcd2).
    destruct (Hframe2 d1 Hd1) as [Hd1' Hcd1'].
    apply wp_Equal; [done..|]. intros r. apply bool_decide_eq_true_2.
    rewrite Hcd1', Hcd1, Hcd2, HcA1, HcB1. set_solver.
  - apply wp_bind. eapply wp_mono; [by apply Diff_result|].
    intros d σ' (_ & Hd & _ & Hcd).
    apply wp_IsEmpty; [done|]. apply bool_decide_eq_true_2.
    rewrite Hcd. set_solver.
Qed.

(** C7: [ForEach] never panics and leaves the set as it was.  When it
    returns nil, the callback was called once on each element, in some
    order, and returned nil every time.  When it returns an error, the
    callback was called on distinct elements, returned nil on all of them
    but the last, and returned on the last the very error [ForEach]
    returns; the environment is the one that call left, so the callback
    was not called again and the elements [rest] were not visited. *)
Theorem ForEach_stops_at_first_error {Env} (s : IDSet)
    (callback : ID → Env → Env * option Err) (env : Env) (σ : runtime) :
  valid (heap σ) s →
  wp (uu.ForEach s callback env) σ (λ '(env', err) σ',
    heap σ' = heap σ ∧
    match err with
    | None =>
        ∃ visited, visited ≡ₚ elements (contents (heap σ) s) ∧
                   returns_nil callback visited env env'
    | Some e =>
        ∃ visited id rest env1,
          visited ++ id :: rest ≡ₚ elements (contents (heap σ) s) ∧
          returns_nil callback visited env env1 ∧
          callback id env1 = (env', Some e)
    end).
Proof.
  intros Hv. apply wp_ForEach; [done| |]; simpl; eauto 10.
Qed.

(** C9: [Clone] of the nil set is the nil set.  [Clone] of a non-nil set
    [s] never panics and returns a non-nil set at a new address that is
    [Equal] to [s]; whatever sequence of mutating calls is then made on
    the clone leaves the elements of [s] as they were, and whatever
    sequence is made on [s] leaves the elements of the clone as they
    were. *)
Theorem Clone_preserves_null_and_is_independent (s : IDSet) (σ : runtime) :
  valid (heap σ) s →
  match s with
  | None => ∃ c, uu.Clone s σ = Some (c, σ) ∧ uu.IsNull c = true
  | Some _ =>
      wp (uu.Clone s) σ (λ c σ1,
        uu.IsNull c = false ∧
        (∃ l', c = Some l' ∧ heap σ !! l' = None) ∧
        contents (heap σ1) c = contents (heap σ) s ∧
        contents (heap σ1) s = contents (heap σ) s ∧
        wp (uu.Equal c s) σ1 (λ eq _, eq = true) ∧
        ∀ ms, Forall (mutation_valid (heap σ1)) ms →
          wp (mutate_all c ms) σ1 (λ _ σ2,
            contents (heap σ2) s = contents (heap σ) s) ∧
          wp (mutate_all s ms) σ1 (λ _ σ2,
            contents (heap σ2) c = contents (heap σ) s))
  end.
Proof.
  intros Hv. destruct s as [l|]; [|by exists None].
  apply wp_Clone; [done|]. intros l' Hl'.
  pose proof (valid_fresh_ne _ _ _ Hl' Hv) as Hne.
  assert (Some l' ≠ Some l) as Hne' by congruence.
  unfold set_heap; cbn [heap].
  remember (contents (heap σ) (Some l)) as X eqn:HX.
  remember (<[l' := X]> (heap σ)) as h1 eqn:Hh1.
  assert (contents h1 (Some l') = X) as Hc by (by rewrite Hh1, contents_insert).
  assert (contents h1 (Some l) = X) as Hs
    by (by rewrite Hh1, contents_insert_ne, HX).
  assert (valid h1 (Some l')) as Hvc
    by (rewrite Hh1; simpl; by rewrite lookup_insert_eq).
  assert (valid h1 (Some l)) as Hvs by (rewrite Hh1; by apply valid_insert).
  split; [done|]. split; [eauto|]. split; [done|]. split; [done|]. split.
  - apply wp_Equal; [done..|]. intros r. apply bool_decide_eq_true_2.
    cbn [heap]. by rewrite Hc, Hs.
  - intros ms Hms. split.
    + apply wp_mutate_all; [done..|]. cbn [heap]. intros σ2 Hch.
      by rewrite (only_changes_contents _ _ _ _ Hch).
    + apply wp_mutate_all; [done..|]. cbn [heap]. intros σ2 Hch.
      by rewrite (only_changes_contents _ _ _ _ Hch).
Qed.

(** C10: [Equal] does not tell the nil set from a non-nil empty set: it
    returns true on them in either order, while [IsNull] is true of the
    first and false of the second. *)
Theorem Equal_nil_empty (l : loc) (σ : runtime) :
  heap σ !! l = Some ∅ →
  let n : IDSet := None in
  let e : IDSet := Some l in
  wp (uu.Equal n e) σ (λ eq _, eq = true) ∧
  wp (uu.Equal e n) σ (λ eq _, eq = true) ∧
  uu.IsNull n = true ∧ uu.IsNull e = false.
Proof.
  intros Hl n e.
  assert (valid (heap σ) e) as He by (simpl; eauto).
  assert (contents (heap σ) e = ∅) as Hc by (simpl; by rewrite Hl).
  repeat split.
  - apply wp_Equal; [done..|]. intros r. by rewrite Hc.
  - apply wp_Equal; [done..|]. intros r. by rewrite Hc.
Qed.

Section order.
(** [IDSlice.Sort] sorts by a total order on identifiers. *)
Context {ID_le_trans : Transitive ID_le}.
Context {ID_le_antisym : AntiSymm (=) ID_le}.
Context {ID_le_total : Total ID_le}.

(** Sorting forgets the order the keys were visited in. *)
Lemma merge_sort_unique (ks ks' : list ID) :
  ks ≡ₚ ks' → merge_sort ID_le ks = merge_sort ID_le ks'.
Proof.
  intros Hp. apply (Sorted_unique ID_le); [apply Sorted_merge_sort; apply _..|].
  by rewrite !merge_sort_Permutation.
Qed.

Lemma wp_AsSortedSlice_sorted s σ Q :
  valid (heap σ) s →
  (∀ r, Q (sorted_slice (contents (heap σ) s)) (set_rng (λ _, r) σ)) →
  wp (uu.AsSortedSlice s) σ Q.
Proof.
  intros Hv HQ. apply wp_AsSortedSlice; [done|]. intros ks r Hks.
  rewrite (merge_sort_unique _ _ Hks). apply HQ.
Qed.

(** C6: two non-nil sets that [Equal] finds equal serialize to the same
    bytes, whatever order their maps are iterated in (the random streams
    [r1] and [r2] are arbitrary): [String], [MarshalJSON] and [Value]
    each return the same result for both, because each formats the
    sorted slice of [AsSortedSlice]. *)
Theorem serialization_deterministic (l1 l2 : loc) (h : gmap loc (gset ID))
    (r r1 r2 : nat → nat) :
  let s1 : IDSet := Some l1 in
  let s2 : IDSet := Some l2 in
  valid h s1 → valid h s2 →
  wp (uu.Equal s1 s2) {| heap := h; rng := r |} (λ eq _, eq = true) →
  ∃ text json value,
    wp (uu.String s1) {| heap := h; rng := r1 |} (λ out _, out = text) ∧
    wp (uu.String s2) {| heap := h; rng := r2 |} (λ out _, out = text) ∧
    wp (uu.MarshalJSON s1) {| heap := h; rng := r1 |} (λ out _, out = json) ∧
    wp (uu.MarshalJSON s2) {| heap := h; rng := r2 |} (λ out _, out = json) ∧
    wp (uu.Value s1) {| heap := h; rng := r1 |} (λ out _, out = value) ∧
    wp (uu.Value s2) {| heap := h; rng := r2 |} (λ out _, out = value).
Proof.
  intros s1 s2 H1 H2 Heq.
  apply Equal_true_contents in Heq; [|done..]. cbn [heap] in Heq.
  exists ("set" +:+ uu.IDSlice_String (sorted_slice (contents h s1))),
    (IDSlice_MarshalJSON (sorted_slice (contents h s1))),
    (IDSlice_Value (sorted_slice (contents h s1))).
  repeat split.
  - apply wp_bind, wp_AsSortedSlice_sorted; [done|]. intros r'. by apply wp_ret.
  - apply wp_bind, wp_AsSortedSlice_sorted; [done|]. intros r'. apply wp_ret.
    cbn [heap]. by rewrite Heq.
  - apply wp_bind, wp_AsSortedSlice_sorted; [done|]. intros r'. by apply wp_ret.
  - apply wp_bind, wp_AsSortedSlice_sorted; [done|]. intros r'. apply wp_ret.
    cbn [heap]. by rewrite Heq.
  - apply wp_bind, wp_AsSortedSlice_sorted; [done|]. intros r'. by apply wp_ret.
  - apply wp_bind, wp_AsSortedSlice_sorted; [done|]. intros r'. apply wp_ret.
    cbn [heap]. by rewrite Heq.
Qed.

End order.

Section roundtrip.
(** What the round trip needs from the identifier: its string form is
    not empty, holds no comma, and is read back by [IDFromString] after
    [strutil.TrimSpace]. *)
Hypothesis ID_String_nonempty : ∀ id, ID_String id ≠ EmptyString.
Hypothesis ID_String_no_comma : ∀ id, GoStrings.contains_byte (ID_String id) "," = false.
Hypothesis IDFromString_ID_String : ∀ id, IDFromString (TrimSpace (ID_String id)) = (id, None).

(** What it needs from [IDSlice]: marshalling a slice does not fail,
    gives the token [null] for no slice that has elements, and
    unmarshalling what it gives into a nil slice yields the same
    elements. *)
Hypothesis IDSlice_MarshalJSON_ok : ∀ sl, (IDSlice_MarshalJSON sl).2 = None.
Hypothesis IDSlice_MarshalJSON_null : ∀ sl,
  GoBytes.Equal (IDSlice_MarshalJSON sl).1 (GoBytes.of_string "null") = true →
  uu.slice_ids sl = [].
Hypothesis IDSlice_UnmarshalJSON_MarshalJSON : ∀ sl,
  let r := IDSlice_UnmarshalJSON None (IDSlice_MarshalJSON sl).1 in
  r.2 = None ∧ uu.slice_ids r.1 = uu.slice_ids sl.

(** [IDSetFromString] on the text [String] writes for the identifiers
    [ids]. *)
Lemma IDSetFromString_canonical (ids : list ID) (σ : runtime) :
  uu.IDSetFromString ("set" +:+ uu.IDSlice_String (slice_of ids)) σ =
  match ids with
  | [] => Some ((None, None), σ)
  | _ => uu.MakeIDSetFromStrings (TrimSpace <$> (ID_String <$> ids)) σ
  end.
Proof.
  unfold uu.IDSetFromString, uu.IDSlice_String. rewrite slice_ids_slice_of.
  set (body := GoStrings.Join (ID_String <$> ids) ",").
  rewrite TrimPrefix_app, HasPrefix_app.
  rewrite HasSuffix_brackets. cbn [andb].
  rewrite slice_brackets. unfold bind at 1. cbn [must ret].
  destruct ids as [|id ids]; [done|].
  destruct (String.eqb_spec body EmptyString) as [Hbody|_].
  { apply Join_empty in Hbody; [done|].
    apply Forall_fmap, Forall_forall. intros ??. apply ID_String_nonempty. }
  unfold body. rewrite Split_Join; [done|done|].
  apply Forall_fmap, Forall_forall. intros ??. apply ID_String_no_comma.
Qed.

Lemma parsed_ids_canonical (ids : list ID) :
  parsed_ids (TrimSpace <$> (ID_String <$> ids)) = ids.
Proof.
  unfold parsed_ids. induction ids as [|id ids IH]; csimpl; [done|].
  by rewrite IDFromString_ID_String, IH.
Qed.

Lemma parses_canonical (ids : list ID) :
  Forall parses (TrimSpace <$> (ID_String <$> ids)).
Proof.
  apply Forall_fmap, Forall_fmap, Forall_forall. intros id _.
  unfold parses. simpl. by rewrite IDFromString_ID_String.
Qed.

Lemma wp_IDSetFromString_canonical (ids : list ID) (σ : runtime) Q :
  wp (match ids with
      | [] => ret (None, None)
      | _ => uu.MakeIDSetFromStrings (TrimSpace <$> (ID_String <$> ids))
      end) σ Q →
  wp (uu.IDSetFromString ("set" +:+ uu.IDSlice_String (slice_of ids))) σ Q.
Proof. unfold wp. rewrite IDSetFromString_canonical. by destruct ids. Qed.

(** Parsing the canonical text of the identifiers [ids], which are the
    elements of [s], gives a set that [Equal] finds equal to [s]. *)
Lemma wp_parse_canonical (ids : list ID) (s : IDSet) (σ : runtime) :
  valid (heap σ) s → ids ≡ₚ elements (contents (heap σ) s) →
  wp (let* '(parsed, err) :=
        uu.IDSetFromString ("set" +:+ uu.IDSlice_String (slice_of ids)) in
      let* eq := uu.Equal parsed s in
      ret (err, eq)) σ (λ r _, r = (None, true)).
Proof.
  intros Hv Hids. apply wp_bind, wp_IDSetFromString_canonical.
  destruct ids as [|id ids].
  - apply wp_ret, wp_bind, wp_Equal; [done..|]. intros r. apply wp_ret.
    f_equal. apply bool_decide_eq_true_2. simpl.
    symmetry in Hids. apply Permutation_nil_r in Hids.
    by apply elements_empty_inv, leibniz_equiv in Hids.
  - apply wp_MakeIDSetFromStrings.
    + intros l σ' Hl _ Hσ'. rewrite parsed_ids_canonical in Hσ'.
      pose proof (valid_fresh_ne _ _ _ Hl Hv) as Hne.
      apply wp_bind, wp_Equal.
      { rewrite Hσ'. simpl. by rewrite lookup_insert_eq. }
      { rewrite Hσ'. by apply valid_insert. }
      intros r. apply wp_ret. f_equal. apply bool_decide_eq_true_2.
      rewrite Hσ', contents_insert, contents_insert_ne by done.
      rewrite Hids. apply list_to_set_elements_L.
    + intros pre bad post e l X σ' Hsplit _ Hbad _ _. exfalso.
      pose proof (parses_canonical (id :: ids)) as Hall.
      rewrite Hsplit in Hall. apply Forall_app in Hall as [_ Hall].
      apply Forall_cons in Hall as [Hall _]. unfold parses in Hall. congruence.
Qed.

(** C2: for every set, nil, empty or populated, parsing what [String]
    writes succeeds with a set that is [Equal] to it, and unmarshalling
    what [MarshalJSON] writes, into any target, succeeds with a set that
    is [Equal] to it. *)
Theorem roundtrip_String_and_JSON (s target : IDSet) (σ : runtime) :
  valid (heap σ) s →
  wp (let* str := uu.String s in
      let* '(parsed, err) := uu.IDSetFromString str in
      let* eq := uu.Equal parsed s in
      ret (err, eq)) σ (λ r _, r = (None, true)) ∧
  wp (let* '(data, err) := uu.MarshalJSON s in
      let* '(decoded, err') := uu.UnmarshalJSON target data in
      let* eq := uu.Equal decoded s in
      ret (err, err', eq)) σ (λ r _, r = (None, None, true)).
Proof.
  intros Hv. split.
  - apply wp_bind, wp_String; [done|]. intros ks r Hks.
    apply wp_parse_canonical; [done|]. by rewrite merge_sort_Permutation.
  - apply wp_bind. destruct s as [l|]; cbn [uu.MarshalJSON uu.is_nil].
    + apply wp_bind, wp_AsSortedSlice; [done|]. intros ks r Hks. apply wp_ret.
      set (sl := slice_of (merge_sort ID_le ks)).
      assert (list_to_set (uu.slice_ids sl) = contents (heap σ) (Some l)) as Hsl.
      { unfold sl. rewrite slice_ids_slice_of, merge_sort_Permutation, Hks.
        apply list_to_set_elements_L. }
      pose proof (IDSlice_MarshalJSON_ok sl) as Hok.
      pose proof (IDSlice_MarshalJSON_null sl) as Hnull.
      pose proof (IDSlice_UnmarshalJSON_MarshalJSON sl) as Hrt.
      destruct (IDSlice_MarshalJSON sl) as [data err]. simpl in Hok, Hnull, Hrt.
      subst err. apply wp_bind. unfold uu.UnmarshalJSON.
      destruct (GoBytes.Equal data (GoBytes.of_string "null")) eqn:Hdata.
      * apply wp_ret, wp_bind, wp_Equal; [done..|]. intros r'. apply wp_ret.
        do 2 f_equal. apply bool_decide_eq_true_2.
        cbn [heap set_rng]. rewrite <-Hsl, Hnull by done. done.
      * destruct (IDSlice_UnmarshalJSON None data) as [sl' err'].
        simpl in Hrt. destruct Hrt as [-> Hrt].
        apply wp_bind, wp_IDSlice_AsSet. intros l' σ' Hl' Hσ'.
        cbn [heap set_rng] in Hl', Hσ'.
        pose proof (valid_fresh_ne _ _ _ Hl' Hv) as Hne.
        apply wp_ret, wp_bind, wp_Equal.
        { rewrite Hσ'. simpl. by rewrite lookup_insert_eq. }
        { rewrite Hσ'. by apply valid_insert. }
        intros r'. apply wp_ret. do 2 f_equal. apply bool_decide_eq_true_2.
        rewrite Hσ', contents_insert, contents_insert_ne by done.
        by rewrite Hrt.
    + apply wp_ret, wp_bind, wp_ret, wp_bind, wp_Equal; [done..|].
      intros r. by apply wp_ret.
Qed.

End roundtrip.

End claims.

(** ** Further properties of idset.go *)

Section more.
Context `{Deps}.

(** X1: [Equal] decides equality of the element sets: on map values of
    the store, nil or not, it returns true exactly when both have the
    same elements, and it changes no table.  So it is reflexive, and the
    order of its operands does not matter. *)
Theorem Equal_decides_set_equality (s other : IDSet) (σ : runtime) :
  valid (heap σ) s → valid (heap σ) other →
  wp (uu.Equal s other) σ (λ eq σ',
    eq = bool_decide (contents (heap σ) s = contents (heap σ) other) ∧
    heap σ' = heap σ) ∧
  wp (uu.Equal s s) σ (λ eq _, eq = true) ∧
  wp (let* a := uu.Equal s other in
      let* b := uu.Equal other s in
      ret (a, b)) σ (λ '(a, b) _, a = b).
Proof.
  intros Hs Ho. repeat split.
  - by apply wp_Equal.
  - apply wp_Equal; [done..|]. intros r. by apply bool_decide_eq_true_2.
  - apply wp_bind, wp_Equal; [done..|]. intros r.
    apply wp_bind, wp_Equal; [done..|]. intros r'. apply wp_ret.
    cbn [heap set_rng]. apply bool_decide_ext. split; congruence.
Qed.

(** A loop that stores the keys [ks] into the table at [l]. *)
Lemma wp_store_loop l ks X σ Q :
  heap σ !! l = Some X →
  (∀ σ', heap σ' = <[l := list_to_set ks ∪ X]> (heap σ) → Q tt σ') →
  wp (uu.for_range_ ks (λ id, map_store (Some l) id)) σ Q.
Proof.
  intros Hl HQ.
  apply (wp_for_range_
    (λ done σ', heap σ' = <[l := list_to_set done ∪ X]> (heap σ))).
  - rewrite insert_id; [done|]. rewrite Hl. f_equal. set_solver.
  - intros done k rest σ' _ HI. apply wp_map_store.
    { rewrite HI. simpl. by rewrite lookup_insert_eq. }
    unfold set_heap; cbn [heap].
    rewrite HI, contents_insert, insert_insert_eq. f_equal.
    rewrite list_to_set_app_L. set_solver.
  - done.
Qed.

(** A loop that deletes the keys [ks] from the table at [l]. *)
Lemma wp_delete_loop l ks X σ Q :
  heap σ !! l = Some X →
  (∀ σ', heap σ' = <[l := X ∖ list_to_set ks]> (heap σ) → Q tt σ') →
  wp (uu.for_range_ ks (λ id, map_delete (Some l) id)) σ Q.
Proof.
  intros Hl HQ.
  apply (wp_for_range_
    (λ done σ', heap σ' = <[l := X ∖ list_to_set done]> (heap σ))).
  - rewrite insert_id; [done|]. rewrite Hl. f_equal. set_solver.
  - intros done k rest σ' _ HI. apply wp_map_delete.
    { rewrite HI. simpl. by rewrite lookup_insert_eq. }
    unfold set_heap; cbn [heap].
    rewrite HI, contents_insert, insert_insert_eq. f_equal.
    rewrite list_to_set_app_L. set_solver.
  - done.
Qed.

(** X2: on a non-nil receiver [Add], [AddSlice] and [AddSet] never panic
    and make the receiver the union of what it held and what is added;
    every other table stays as it was.  The argument of [AddSet] may be
    nil or the receiver itself. *)
Theorem Add_AddSlice_AddSet_union (l : loc) (id : ID) (sl : IDSlice)
    (other : IDSet) (σ : runtime) :
  let s : IDSet := Some l in
  valid (heap σ) s → valid (heap σ) other →
  wp (uu.Add s id) σ (λ _ σ',
    heap σ' = <[l := {[id]} ∪ contents (heap σ) s]> (heap σ)) ∧
  wp (uu.AddSlice s sl) σ (λ _ σ',
    heap σ' = <[l := list_to_set (uu.slice_ids sl) ∪ contents (heap σ) s]> (heap σ)) ∧
  wp (uu.AddSet s other) σ (λ _ σ',
    heap σ' = <[l := contents (heap σ) other ∪ contents (heap σ) s]> (heap σ)).
Proof.
  intros s Hs Ho. pose proof (valid_contents _ _ Hs) as Hl. repeat split.
  - by apply wp_map_store.
  - by apply (wp_store_loop l _ _ _ _ Hl).
  - apply wp_bind, wp_map_range; [done|]. intros ks r Hks.
    apply (wp_store_loop l ks (contents (heap σ) (Some l)) (set_rng (λ _, r) σ));
      [exact Hl|].
    intros σ' ->. cbn [heap set_rng].
    by rewrite Hks, list_to_set_elements_L.
Qed.

(** X3: on a non-nil receiver [Delete], [Clear], [DeleteSlice] and
    [DeleteSet] never panic and leave in the receiver what it held minus
    what is deleted, whether or not that was present; every other table
    stays as it was.  [DeleteSet] of a set from itself empties it. *)
Theorem Delete_Clear_DeleteSlice_DeleteSet_difference (l : loc) (id : ID)
    (sl : IDSlice) (other : IDSet) (σ : runtime) :
  let s : IDSet := Some l in
  valid (heap σ) s → valid (heap σ) other →
  wp (uu.Delete s id) σ (λ _ σ',
    heap σ' = <[l := contents (heap σ) s ∖ {[id]}]> (heap σ)) ∧
  wp (uu.Clear s) σ (λ _ σ', heap σ' = <[l := ∅]> (heap σ)) ∧
  wp (uu.DeleteSlice s sl) σ (λ _ σ',
    heap σ' = <[l := contents (heap σ) s ∖ list_to_set (uu.slice_ids sl)]> (heap σ)) ∧
  wp (uu.DeleteSet s other) σ (λ _ σ',
    heap σ' = <[l := contents (heap σ) s ∖ contents (heap σ) other]> (heap σ)) ∧
  wp (uu.DeleteSet s s;; uu.IsEmpty s) σ (λ empty _, empty = true).
Proof.
  intros s Hs Ho. pose proof (valid_contents _ _ Hs) as Hl. repeat split.
  - by apply (wp_map_delete s).
  - by apply (wp_map_clear s).
  - by apply (wp_delete_loop l _ _ _ _ Hl).
  - apply wp_bind, wp_map_range; [done|]. intros ks r Hks.
    apply (wp_delete_loop l ks (contents (heap σ) (Some l)) (set_rng (λ _, r) σ));
      [exact Hl|].
    intros σ' ->. cbn [heap set_rng].
    by rewrite Hks, list_to_set_elements_L.
  - apply wp_bind, wp_bind, wp_map_range; [done|]. intros ks r Hks.
    apply (wp_delete_loop l ks (contents (heap σ) (Some l)) (set_rng (λ _, r) σ));
      [exact Hl|].
    intros σ' Hσ'. apply wp_IsEmpty.
    { rewrite Hσ'. simpl. by rewrite lookup_insert_eq. }
    apply bool_decide_eq_true_2. rewrite Hσ', contents_insert.
    cbn [heap set_rng]. rewrite Hks, list_to_set_elements_L. set_solver.
Qed.

(** A loop whose body does nothing does nothing. *)
Lemma for_range_skip {A} (ks : list A) (σ : runtime) :
  uu.for_range_ ks (λ _, ret tt) σ = Some (tt, σ).
Proof.
  unfold uu.for_range_. unfold bind at 1.
  induction ks as [|k ks IH]; [done|]. exact IH.
Qed.

(** X4: the nil receiver.  [Delete], [Clear], [DeleteSlice] and
    [DeleteSet] return without touching the store.  [Add] panics;
    [AddSlice] and [AddSet] panic as soon as there is one element to
    add, and return when there is none. *)
Theorem nil_receiver_deletes_return_adds_panic (id : ID) (sl : IDSlice)
    (other : IDSet) (σ : runtime) :
  valid (heap σ) other →
  uu.Delete None id σ = Some (tt, σ) ∧
  uu.Clear None σ = Some (tt, σ) ∧
  uu.DeleteSlice None sl σ = Some (tt, σ) ∧
  wp (uu.DeleteSet None other) σ (λ _ σ', heap σ' = heap σ) ∧
  uu.Add None id σ = None ∧
  uu.AddSlice None sl σ =
    match uu.slice_ids sl with [] => Some (tt, σ) | _ => None end ∧
  (contents (heap σ) other = ∅ →
     wp (uu.AddSet None other) σ (λ _ σ', heap σ' = heap σ)) ∧
  (∀ id', id' ∈ contents (heap σ) other → uu.AddSet None other σ = None).
Proof.
  intros Ho. repeat split.
  - apply (for_range_skip (uu.slice_ids sl)).
  - apply wp_bind, wp_map_range; [done|]. intros ks r _.
    exists tt, (set_rng (λ _, r) σ). split; [apply (for_range_skip ks)|done].
  - unfold uu.AddSlice. by destruct (uu.slice_ids sl).
  - intros Hempty. apply wp_bind, wp_map_range; [done|]. intros ks r Hks.
    rewrite Hempty, elements_empty in Hks. apply Permutation_nil_r in Hks as ->.
    by apply wp_ret.
  - intros id' Hid'.
    assert (wp (map_range other) σ (λ ks _, ks ≠ [])) as (ks & σ' & Hrun & Hks).
    { apply wp_map_range; [done|]. intros ks r Hks ->.
      symmetry in Hks. apply Permutation_nil_r, elements_empty_inv in Hks.
      set_solver. }
    unfold uu.AddSet, bind. rewrite Hrun. by destruct ks.
Qed.

Lemma wp_Len s σ Q :
  valid (heap σ) s → Q (Z.of_nat (size (contents (heap σ) s))) σ →
  wp (uu.Len s) σ Q.
Proof. intros Hv HQ. apply wp_bind, wp_map_len; [done|]. by apply wp_ret. Qed.

(** X5: what [Contains] and [Len] see after [Add] and [Delete] on a
    non-nil set.  After [Add(id)] the set contains [id] and what it
    contained; after [Delete(id)] it contains what it contained except
    [id].  [Len] grows by one only when [id] was absent, so adding twice
    is adding once, and it shrinks by one only when [id] was present. *)
Theorem Add_Delete_then_Contains_Len (l : loc) (id id' : ID) (σ : runtime) :
  let s : IDSet := Some l in
  let X := contents (heap σ) s in
  valid (heap σ) s →
  wp (uu.Add s id;; uu.Contains s id') σ (λ found _,
    found = bool_decide (id' = id ∨ id' ∈ X)) ∧
  wp (uu.Delete s id;; uu.Contains s id') σ (λ found _,
    found = bool_decide (id' ≠ id ∧ id' ∈ X)) ∧
  wp (uu.Add s id;; uu.Len s) σ (λ n _,
    n = Z.of_nat (size X) + (if decide (id ∈ X) then 0 else 1)) ∧
  wp (uu.Add s id;; uu.Add s id;; uu.Len s) σ (λ n _,
    n = Z.of_nat (size X) + (if decide (id ∈ X) then 0 else 1)) ∧
  wp (uu.Delete s id;; uu.Len s) σ (λ n _,
    n = Z.of_nat (size X) - (if decide (id ∈ X) then 1 else 0)).
Proof.
  intros s X Hs. subst s.
  assert (∀ Y, valid (heap (set_heap <[l := Y]> σ)) (Some l)) as Hv'.
  { intros Y. simpl. by rewrite lookup_insert_eq. }
  assert (∀ Y, contents (heap (set_heap <[l := Y]> σ)) (Some l) = Y) as Hc'.
  { intros Y. simpl. by rewrite lookup_insert_eq. }
  assert (Z.of_nat (size ({[id]} ∪ X)) =
          Z.of_nat (size X) + (if decide (id ∈ X) then 0 else 1)) as Hadd.
  { case_decide.
    - replace ({[id]} ∪ X) with X by set_solver. lia.
    - rewrite size_union, size_singleton by set_solver. lia. }
  repeat split.
  - apply wp_bind, wp_map_store; [done|]. apply wp_Contains; [done|].
    rewrite Hc'. apply bool_decide_ext. fold X. set_solver.
  - apply wp_bind, (wp_map_delete (Some l)); [done|]. apply wp_Contains; [done|].
    rewrite Hc'. apply bool_decide_ext. fold X. set_solver.
  - apply wp_bind, wp_map_store; [done|]. apply wp_Len; [done|].
    by rewrite Hc'.
  - apply wp_bind, wp_map_store; [done|].
    apply wp_bind, wp_map_store; [done|]. rewrite Hc'.
    apply wp_Len.
    { simpl. by rewrite lookup_insert_eq. }
    simpl. rewrite lookup_insert_eq. simpl.
    replace ({[id]} ∪ ({[id]} ∪ contents (heap σ) (Some l))) with ({[id]} ∪ X)
      by set_solver.
    done.
  - apply wp_bind, (wp_map_delete (Some l)); [done|]. apply wp_Len; [done|].
    rewrite Hc'. fold X. case_decide.
    + rewrite size_difference, size_singleton by set_solver.
      assert (size X ≠ 0%nat) by (apply size_non_empty_iff; set_solver). lia.
    + replace (X ∖ {[id]}) with X by set_solver. lia.
Qed.

(** X6: [AsSlice] never panics and changes no table.  It returns the nil
    slice exactly when the set is nil or empty, and otherwise a slice
    that holds every element of the set once and nothing else, so its
    length is the length of the set. *)
Theorem AsSlice_each_element_once (s : IDSet) (σ : runtime) :
  valid (heap σ) s →
  wp (uu.AsSlice s) σ (λ sl σ',
    heap σ' = heap σ ∧
    uu.slice_ids sl ≡ₚ elements (contents (heap σ) s) ∧
    NoDup (uu.slice_ids sl) ∧
    length (uu.slice_ids sl) = size (contents (heap σ) s) ∧
    (sl = None ↔ contents (heap σ) s = ∅)).
Proof.
  intros Hv. apply wp_AsSlice; [done|]. intros ks r Hks.
  rewrite slice_ids_slice_of. split; [done|]. split; [done|].
  split; [rewrite Hks; apply NoDup_elements|]. split; [by rewrite Hks|].
  destruct ks as [|k ks]; simpl.
  - symmetry in Hks. apply Permutation_nil_r in Hks.
    by apply elements_empty_inv, leibniz_equiv in Hks.
  - split; [done|]. intros Hempty. rewrite Hempty, elements_empty in Hks.
    by apply Permutation_nil_r in Hks.
Qed.

(** X7: [GetOne] never panics and changes no table.  On a nil or empty
    set it returns [IDNil]; otherwise it returns an element of the set,
    hence the element of a set of size one. *)
Theorem GetOne_nil_or_member (s : IDSet) (σ : runtime) :
  valid (heap σ) s →
  wp (uu.GetOne s) σ (λ id σ',
    heap σ' = heap σ ∧
    (contents (heap σ) s = ∅ → id = IDNil) ∧
    (∀ x, x ∈ contents (heap σ) s → id ∈ contents (heap σ) s) ∧
    (∀ x, contents (heap σ) s = {[x]} → id = x)).
Proof.
  intros Hv. apply wp_bind, wp_map_range; [done|]. intros ks r Hks.
  destruct ks as [|k ks].
  - apply wp_bind, wp_ret, wp_ret. split; [done|].
    symmetry in Hks. apply Permutation_nil_r in Hks.
    apply elements_empty_inv, leibniz_equiv in Hks.
    rewrite Hks. set_solver.
  - apply wp_bind, wp_bind, wp_ret, wp_ret, wp_ret. split; [done|].
    assert (k ∈ contents (heap σ) s) as Hk.
    { apply elem_of_elements. rewrite <-Hks. left. }
    split; [set_solver|]. split; [done|]. intros x Hx. set_solver.
Qed.

(** X8: [MakeIDSetMustFromStrings] panics exactly when one of the
    strings does not parse; when all parse it returns a new non-nil set
    holding the parsed identifiers. *)
Theorem MakeIDSetMustFromStrings_panics_or_full_set (strs : list string)
    (σ : runtime) :
  (Forall parses strs →
     wp (uu.MakeIDSetMustFromStrings strs) σ (λ s σ',
       ∃ l, s = Some l ∧ heap σ !! l = None ∧
            heap σ' = <[l := list_to_set (parsed_ids strs)]> (heap σ))) ∧
  (Exists (λ str, is_Some (IDFromString str).2) strs →
     uu.MakeIDSetMustFromStrings strs σ = None).
Proof.
  split.
  - intros Hall. apply wp_bind, wp_MakeIDSetFromStrings.
    + intros l σ' Hl _ Hσ'. apply wp_ret. eauto.
    + intros pre bad post e l X σ' -> _ Hbad _ _. exfalso.
      apply Forall_app in Hall as [_ Hall]. apply Forall_cons in Hall as [Hall _].
      unfold parses in Hall. congruence.
  - intros Hex.
    assert (wp (uu.MakeIDSetFromStrings strs) σ (λ r _, ∃ e, r = (None, Some e)))
      as ([s err] & σ' & Hrun & e & Hr).
    { apply wp_MakeIDSetFromStrings; [|by eauto].
      intros l σ' _ Hall _. exfalso.
      apply Exists_exists in Hex as (str & Hin & [e He]).
      eapply Forall_forall in Hall; [|done]. unfold parses in Hall. congruence. }
    unfold uu.MakeIDSetMustFromStrings, bind. rewrite Hrun.
    by injection Hr as -> ->.
Qed.

(** What [IDSetFromString] can return. *)
Lemma wp_IDSetFromString_shape (str : string) (σ : runtime) :
  wp (uu.IDSetFromString str) σ (λ '(s, err) σ',
    match s, err with
    | None, None => σ' = σ
    | Some l, None => heap σ !! l = None ∧ is_Some (heap σ' !! l)
    | None, Some _ => True
    | Some _, Some _ => False
    end).
Proof.
  unfold uu.IDSetFromString.
  set (str' := GoStrings.TrimPrefix str "set").
  assert (∀ str0, wp
    (if String.eqb str0 EmptyString then ret (None, None)
     else uu.MakeIDSetFromStrings (TrimSpace <$> GoStrings.Split str0 ","))
    σ (λ '(s, err) σ',
         match s, err with
         | None, None => σ' = σ
         | Some l, None => heap σ !! l = None ∧ is_Some (heap σ' !! l)
         | None, Some _ => True
         | Some _, Some _ => False
         end)) as Hrest.
  { intros str0. destruct (String.eqb str0 EmptyString); [by apply wp_ret|].
    apply wp_MakeIDSetFromStrings; [|done].
    intros l σ' Hl _ ->. split; [done|]. by rewrite lookup_insert_eq. }
  destruct (GoStrings.HasPrefix str' "[") eqn:Hpre;
    [destruct (GoStrings.HasSuffix str' "]") eqn:Hsuf|]; cbn [andb].
  - destruct (slice_in_range str' Hpre Hsuf) as [body Hbody].
    apply wp_bind, (wp_must _ body); [done|]. apply Hrest.
  - destruct (_ || _); [by apply wp_ret|]. apply Hrest.
  - destruct (_ || _); [by apply wp_ret|]. apply Hrest.
Qed.

(** X9: [IDSetFromString] returns on every string, it never panics, and
    it never returns a set together with an error: the result is the nil
    set with no error and an unchanged store, or a newly allocated set
    with no error, or the nil set with an error. *)
Theorem IDSetFromString_set_or_error (str : string) (σ : runtime) :
  wp (uu.IDSetFromString str) σ (λ '(s, err) σ',
    match s, err with
    | None, None => σ' = σ
    | Some l, None => heap σ !! l = None ∧ is_Some (heap σ' !! l)
    | None, Some _ => True
    | Some _, Some _ => False
    end).
Proof. apply wp_IDSetFromString_shape. Qed.

Lemma TrimPrefix_none (s prefix : string) :
  GoStrings.HasPrefix s prefix = false → GoStrings.TrimPrefix s prefix = s.
Proof. unfold GoStrings.TrimPrefix. by intros ->. Qed.

(** X10: the prefix [set] and the brackets are optional.  With or without
    the prefix a bracketed text parses the same; and a text that does
    not start with [set], is not bracketed and is not [null] or [NULL]
    parses as it does inside brackets. *)
Theorem IDSetFromString_prefix_and_brackets_optional (body : string) (σ : runtime) :
  uu.IDSetFromString ("set" +:+ "[" +:+ body +:+ "]") σ =
    uu.IDSetFromString ("[" +:+ body +:+ "]") σ ∧
  (GoStrings.HasPrefix body "set" = false →
   GoStrings.HasPrefix body "[" && GoStrings.HasSuffix body "]" = false →
   String.eqb body "null" || String.eqb body "NULL" = false →
   uu.IDSetFromString body σ = uu.IDSetFromString ("[" +:+ body +:+ "]") σ).
Proof.
  assert (GoStrings.TrimPrefix ("[" +:+ body +:+ "]") "set" = "[" +:+ body +:+ "]")
    as Hno by (by apply TrimPrefix_none).
  split.
  - unfold uu.IDSetFromString. by rewrite TrimPrefix_app, Hno.
  - intros Hset Hbr Hnull. unfold uu.IDSetFromString.
    rewrite Hno, (TrimPrefix_none body) by done.
    rewrite Hbr, Hnull, HasPrefix_app, HasSuffix_brackets, slice_brackets.
    cbn [andb]. by unfold bind at 1.
Qed.

(** X11: [UnmarshalText] never panics.  When parsing fails it returns the
    error and leaves the target variable as it was; when parsing
    succeeds it replaces the target by the parsed set, which is nil or
    newly allocated, never the map the target pointed to. *)
Theorem UnmarshalText_replaces_or_keeps (target : IDSet) (text : list Byte.byte)
    (σ : runtime) :
  wp (uu.UnmarshalText target text) σ (λ '(s, err) σ',
    match err with
    | Some _ => s = target
    | None => s = None ∨ ∃ l, s = Some l ∧ heap σ !! l = None
    end).
Proof.
  apply wp_bind. eapply wp_mono; [apply wp_IDSetFromString_shape|].
  intros [[l|] [e|]] σ' Hshape; try done; apply wp_ret.
  - right. exists l. by destruct Hshape.
  - done.
  - by left.
Qed.

Lemma AsSlice_empty (l : loc) (σ : runtime) :
  heap σ !! l = Some ∅ → uu.AsSlice (Some l) σ = Some (None, σ).
Proof.
  intros Hl. unfold uu.AsSlice, map_len, bind, table. rewrite Hl.
  cbn [ret]. by rewrite size_empty.
Qed.

(** X12: a non-nil set without elements is formatted as the nil slice.
    [AsSlice] returns nil when [len(s) == 0], so [AsSortedSlice] is nil
    and [String], [MarshalJSON] and [Value] hand [IDSlice(nil)], not an
    empty slice, to the formatters of [IDSlice]; the store is left as it
    was. *)
Theorem empty_set_is_formatted_as_nil_slice (l : loc) (σ : runtime) :
  heap σ !! l = Some ∅ →
  let s : IDSet := Some l in
  uu.IsNull s = false ∧
  uu.AsSortedSlice s σ = Some (None, σ) ∧
  uu.String s σ = Some ("set" +:+ uu.IDSlice_String None, σ) ∧
  uu.MarshalJSON s σ = Some (IDSlice_MarshalJSON None, σ) ∧
  uu.Value s σ = Some (IDSlice_Value None, σ).
Proof.
  intros Hl s. subst s.
  assert (uu.AsSortedSlice (Some l) σ = Some (None, σ)) as Hsorted.
  { unfold uu.AsSortedSlice, bind. by rewrite AsSlice_empty. }
  repeat split; [done|..].
  - unfold uu.String, bind. by rewrite Hsorted.
  - unfold uu.MarshalJSON, bind. cbn [uu.is_nil]. by rewrite Hsorted.
  - unfold uu.Value, bind. cbn [uu.is_nil]. by rewrite Hsorted.
Qed.

(** X13: [Diff] undoes itself: [Diff(A, Diff(A, B))] is [Equal] to [B].
    And [Diff] with the nil set copies: [Diff(A, nil)] is a new set
    [Equal] to [A]. *)
Theorem Diff_twice_gives_back (A B : IDSet) (σ : runtime) :
  valid (heap σ) A → valid (heap σ) B →
  wp (let* d := uu.Diff A B in
      let* d' := uu.Diff A d in
      uu.Equal d' B) σ (λ eq _, eq = true) ∧
  wp (let* d := uu.Diff A None in
      let* eq := uu.Equal d A in
      ret (d, eq)) σ (λ '(d, eq) _, eq = true ∧ uu.IsNull d = false ∧ d ≠ A).
Proof.
  intros HA HB. split.
  - apply wp_bind. eapply wp_mono; [by apply Diff_result|].
    intros d σ1 (_ & Hd & Hframe1 & Hcd).
    destruct (Hframe1 A HA) as [HA1 HcA1]. destruct (Hframe1 B HB) as [HB1 HcB1].
    apply wp_bind. eapply wp_mono; [by apply Diff_result|].
    intros d' σ2 (_ & Hd' & Hframe2 & Hcd').
    destruct (Hframe2 B HB1) as [HB2 HcB2].
    apply wp_Equal; [done..|]. intros r. apply bool_decide_eq_true_2.
    rewrite Hcd', Hcd, HcA1, HcB2, HcB1. apply set_eq. intros x.
    destruct (decide (x ∈ contents (heap σ) A)),
      (decide (x ∈ contents (heap σ) B)); set_solver.
  - apply wp_bind, wp_Diff; [done..|]. intros l σ1 Hl Hσ1.
    pose proof (valid_fresh_ne _ _ _ Hl HA) as Hne.
    apply wp_bind, wp_Equal.
    { rewrite Hσ1. simpl. by rewrite lookup_insert_eq. }
    { rewrite Hσ1. by apply valid_insert. }
    intros r. apply wp_ret. split; [|split; [done|congruence]].
    apply bool_decide_eq_true_2.
    rewrite Hσ1, contents_insert, contents_insert_ne by done. simpl. set_solver.
Qed.

(** X14: [Len], [IsEmpty] and [IsNull] on a map value of the store.
    [Len] is the number of elements and is not negative, [IsEmpty] is
    true exactly when [Len] is 0, and neither changes the state.  A null
    set has length 0 and is empty; an empty set need not be null. *)
Theorem Len_IsEmpty_IsNull (s : IDSet) (σ : runtime) :
  valid (heap σ) s →
  wp (let* n := uu.Len s in
      let* empty := uu.IsEmpty s in
      ret (n, empty)) σ (λ '(n, empty) σ',
    σ' = σ ∧
    n = Z.of_nat (size (contents (heap σ) s)) ∧
    empty = bool_decide (n = 0) ∧
    (uu.IsNull s = true → n = 0 ∧ empty = true) ∧
    (empty = true → contents (heap σ) s = ∅)).
Proof.
  intros Hv. apply wp_bind, wp_Len; [done|].
  apply wp_bind, wp_IsEmpty; [done|]. apply wp_ret.
  remember (contents (heap σ) s) as X eqn:HX.
  assert (X = ∅ ↔ Z.of_nat (size X) = 0) as Hiff.
  { split; [intros ->; by rewrite size_empty|].
    intros Hz. apply leibniz_equiv, size_empty_inv. lia. }
  split; [done|]. split; [done|]. split; [by apply bool_decide_ext|]. split.
  - intros Hnull. destruct s; [done|]. simpl in HX. subst X.
    by rewrite size_empty.
  - by intros ?%bool_decide_eq_true.
Qed.

(** X15: [Strings] never panics and changes no table.  It returns the nil
    slice for a nil or empty set, and otherwise the string forms of the
    elements, one per element, in increasing order, whatever order the
    map is iterated in. *)
Theorem Strings_sorted_string_forms (s : IDSet) (σ : runtime) :
  valid (heap σ) s →
  wp (uu.Strings s) σ (λ r σ',
    heap σ' = heap σ ∧
    match r with
    | None => contents (heap σ) s = ∅
    | Some ss =>
        Sorted String.le ss ∧
        ss ≡ₚ ID_String <$> elements (contents (heap σ) s) ∧
        ss ≠ []
    end).
Proof.
  intros Hv. unfold uu.Strings.
  apply wp_bind, wp_map_len; [done|].
  remember (contents (heap σ) s) as X eqn:HX.
  destruct (size X =? 0)%nat eqn:Hsz.
  - apply Nat.eqb_eq, size_empty_inv, leibniz_equiv in Hsz. by apply wp_ret.
  - apply Nat.eqb_neq in Hsz.
    apply wp_bind, wp_map_range; [done|]. intros ks r Hks. rewrite <-HX in Hks.
    assert (length ks = size X) as Hlen by by rewrite Hks.
    apply wp_bind.
    apply (wp_for_range (λ done '(ss, i) σ',
      σ' = set_rng (λ _, r) σ ∧ i = length done ∧
      ss = (ID_String <$> done) ++ replicate (size X - length done) EmptyString)).
    + split; [done|]. split; [done|]. simpl. f_equal. lia.
    + intros done k rest [ss i] σ' Hsplit (-> & -> & ->).
      assert (length done < size X)%nat as Hlt.
      { rewrite <-Hlen, Hsplit, length_app. simpl. lia. }
      apply wp_bind. unfold elem_store.
      rewrite decide_True
        by (rewrite length_app, length_fmap, length_replicate; lia).
      apply wp_ret, wp_ret. split; [done|]. split.
      { rewrite length_app. simpl. lia. }
      rewrite <-(length_fmap ID_String done) at 1.
      rewrite insert_app_r_alt, Nat.sub_diag by lia.
      destruct (size X - length done)%nat as [|m] eqn:Hm; [lia|]. simpl.
      rewrite fmap_app, <-app_assoc, length_app. simpl. do 3 f_equal. lia.
    + intros [ss i] σ' (-> & -> & ->). apply wp_ret.
      rewrite Hlen, Nat.sub_diag, app_nil_r. split; [done|].
      unfold GoSort.Strings. split; [apply Sorted_merge_sort; apply _|].
      split; [by rewrite merge_sort_Permutation, Hks|].
      intros Hnil.
      pose proof (merge_sort_Permutation String.le (ID_String <$> ks)) as Hp.
      rewrite Hnil in Hp. symmetry in Hp. apply Permutation_nil_r in Hp.
      apply fmap_nil_inv in Hp. subst ks. simpl in Hlen. lia.
Qed.

(** The first iteration of a loop without return. *)
Lemma for_range__cons {A} (k : A) (ks : list A) (body : A → M unit) (σ : runtime) :
  uu.for_range_ (k :: ks) body σ =
  match body k σ with
  | Some (_, σ') => uu.for_range_ ks body σ'
  | None => None
  end.
Proof.
  unfold uu.for_range_. unfold bind at 1 3. simpl. unfold bind at 1 2.
  by destruct (body k σ) as [[[] σ']|].
Qed.

(** X16: [IDSetMust] returns the nil set, not an empty one, when it is
    passed no values.  Passed values it returns a new non-nil set of
    their identifiers when [IDMust] converts them all, and panics when
    [IDMust] panics on one of them. *)
Theorem IDSetMust_nil_set_or_panic {T} (IDMust : T → option ID) (vals : list T)
    (σ : runtime) :
  (vals = [] → uu.IDSetMust IDMust vals σ = Some (None, σ)) ∧
  (∀ ids, vals ≠ [] → mapM IDMust vals = Some ids →
     wp (uu.IDSetMust IDMust vals) σ (λ s σ',
       ∃ l, s = Some l ∧ heap σ !! l = None ∧
            heap σ' = <[l := list_to_set ids]> (heap σ))) ∧
  (mapM IDMust vals = None → uu.IDSetMust IDMust vals σ = None).
Proof.
  split; [by intros ->|]. split.
  - intros ids Hne Hids. unfold uu.IDSetMust.
    destruct vals as [|v vals]; [done|]. cbn [length Nat.eqb].
    apply wp_bind, wp_make_IDSet. intros l Hl. apply wp_bind.
    apply mapM_Some_1 in Hids.
    apply (wp_for_range_ (λ done σ', ∃ dids,
      Forall2 (λ x y, IDMust x = Some y) done dids ∧
      heap σ' = <[l := list_to_set dids]> (heap σ))).
    + exists []. by split; [constructor|].
    + intros done k rest σ' Hsplit (dids & Hdone & HI).
      rewrite Hsplit in Hids.
      apply Forall2_app_inv_l in Hids as (ids1 & ids2 & Hids1 & Hids2 & ->).
      apply Forall2_cons_inv_l in Hids2 as (id & ids3 & Hk & _ & ->).
      apply wp_bind, (wp_must _ id); [done|]. apply wp_map_store.
      { rewrite HI. simpl. by rewrite lookup_insert_eq. }
      exists (dids ++ [id]). split.
      { apply Forall2_app; [done|]. by repeat constructor. }
      unfold set_heap; cbn [heap].
      rewrite HI, contents_insert, insert_insert_eq. f_equal.
      rewrite list_to_set_app_L. set_solver.
    + intros σ' (dids & Hdone & HI). apply wp_ret. exists l.
      split; [done|]. split; [done|]. rewrite HI. do 2 f_equal.
      revert Hdone Hids. generalize (v :: vals). clear.
      intros vs H1. revert ids. induction H1 as [|x y vs dids Hx _ IH];
        intros ids H2; inversion H2; subst; [done|].
      f_equal; [congruence|]. by apply IH.
  - intros Hnone. unfold uu.IDSetMust.
    destruct vals as [|v vals]; [done|]. cbn [length Nat.eqb].
    unfold bind at 1. cbn [make_IDSet].
    set (l := fresh (dom (heap σ))).
    assert (∀ vs σ0, is_Some (heap σ0 !! l) → mapM IDMust vs = None →
      uu.for_range_ vs (λ val, let* id := must (IDMust val) in
                               uu.Add (Some l) id) σ0 = None) as Hloop.
    { clear. induction vs as [|x vs IH]; intros σ0 Hl Hnone; [done|].
      rewrite for_range__cons. csimpl in Hnone.
      destruct (IDMust x) as [id|] eqn:Hx; [|done].
      assert (wp (let* id := must (Some id) in uu.Add (Some l) id) σ0
                (λ _ σ', is_Some (heap σ' !! l))) as ([] & σ' & -> & Hl').
      { apply wp_bind, (wp_must _ id); [done|]. apply wp_map_store; [done|].
        simpl. rewrite lookup_insert_eq. eauto. }
      apply IH; [done|]. simpl in Hnone. by destruct (mapM IDMust vs). }
    unfold bind. rewrite Hloop; [done| |done].
    simpl. rewrite lookup_insert_eq. eauto.
Qed.

Section more_roundtrips.
(** The contract of the identifier, as for the round trip through
    [String]. *)
Hypothesis ID_String_nonempty : ∀ id, ID_String id ≠ EmptyString.
Hypothesis ID_String_no_comma : ∀ id, GoStrings.contains_byte (ID_String id) "," = false.
Hypothesis IDFromString_ID_String : ∀ id, IDFromString (TrimSpace (ID_String id)) = (id, None).

(** The contract of [IDSlice] towards the database: [Value] does not
    fail, gives NULL for no slice that has elements, and [Scan] of a
    value it gives, into a nil slice, yields the same elements. *)
Hypothesis IDSlice_Value_ok : ∀ sl, (IDSlice_Value sl).2 = None.
Hypothesis IDSlice_Value_null : ∀ sl, (IDSlice_Value sl).1 = None → uu.slice_ids sl = [].
Hypothesis IDSlice_Scan_Value : ∀ sl v,
  (IDSlice_Value sl).1 = Some v →
  let r := IDSlice_Scan None (Some v) in
  r.2 = None ∧ uu.slice_ids r.1 = uu.slice_ids sl.

(** Parsing the canonical text of the elements of [s] gives no error and
    a map value with the elements of [s]. *)
Lemma wp_IDSetFromString_elements (ids : list ID) (s : IDSet) (σ : runtime) Q :
  valid (heap σ) s → ids ≡ₚ elements (contents (heap σ) s) →
  (∀ parsed σ', valid (heap σ') parsed → valid (heap σ') s →
     contents (heap σ') parsed = contents (heap σ') s →
     Q (parsed, None) σ') →
  wp (uu.IDSetFromString ("set" +:+ uu.IDSlice_String (slice_of ids))) σ Q.
Proof.
  intros Hv Hids HQ. apply wp_IDSetFromString_canonical; [done..|].
  destruct ids as [|id ids].
  - apply wp_ret, HQ; [done..|]. simpl.
    symmetry in Hids. apply Permutation_nil_r in Hids.
    by apply elements_empty_inv, leibniz_equiv in Hids.
  - apply wp_MakeIDSetFromStrings.
    + intros l σ' Hl _ Hσ'. rewrite parsed_ids_canonical in Hσ' by done.
      pose proof (valid_fresh_ne _ _ _ Hl Hv) as Hne.
      apply HQ.
      { rewrite Hσ'. simpl. by rewrite lookup_insert_eq. }
      { rewrite Hσ'. by apply valid_insert. }
      rewrite Hσ', contents_insert, contents_insert_ne by done.
      rewrite Hids. apply list_to_set_elements_L.
    + intros pre bad post e l X σ' Hsplit _ Hbad _ _. exfalso.
      pose proof (parses_canonical IDFromString_ID_String (id :: ids)) as Hall.
      rewrite Hsplit in Hall. apply Forall_app in Hall as [_ Hall].
      apply Forall_cons in Hall as [Hall _]. unfold parses in Hall. congruence.
Qed.

(** X17: the round trip through the text protocol.  For every set, nil,
    empty or populated, [UnmarshalText] of what [MarshalText] writes,
    into any target, succeeds with a set that is [Equal] to it. *)
Theorem roundtrip_MarshalText_UnmarshalText (s target : IDSet) (σ : runtime) :
  valid (heap σ) s →
  wp (let* '(text, err) := uu.MarshalText s in
      let* '(decoded, err') := uu.UnmarshalText target text in
      let* eq := uu.Equal decoded s in
      ret (err, err', eq)) σ (λ r _, r = (None, None, true)).
Proof.
  intros Hv. apply wp_bind, wp_bind, wp_String; [done|]. intros ks r Hks.
  apply wp_ret, wp_bind, wp_bind.
  unfold GoBytes.to_string, GoBytes.of_string.
  rewrite String.string_of_list_byte_of_string.
  apply (wp_IDSetFromString_elements _ s); [done| |].
  { by rewrite merge_sort_Permutation. }
  intros parsed σ' Hp Hs Hc. apply wp_ret, wp_bind, wp_Equal; [done..|].
  intros r'. apply wp_ret. do 2 f_equal. by apply bool_decide_eq_true_2.
Qed.

(** X18: the round trip through the database protocol.  For every set,
    [Scan] of what [Value] returns, into any target, succeeds with a set
    that is [Equal] to it; for the nil set the value is NULL and the set
    scanned is nil. *)
Theorem roundtrip_Value_Scan (s target : IDSet) (σ : runtime) :
  valid (heap σ) s →
  wp (let* '(value, err) := uu.Value s in
      let* '(scanned, err') := uu.Scan target value in
      let* eq := uu.Equal scanned s in
      ret (err, err', eq, negb (uu.IsNull s) || uu.IsNull scanned)) σ
     (λ r _, r = (None, None, true, true)).
Proof.
  intros Hv. apply wp_bind. destruct s as [l|]; cbn [uu.Value uu.is_nil].
  - apply wp_bind, wp_AsSortedSlice; [done|]. intros ks r Hks. apply wp_ret.
    set (sl := slice_of (merge_sort ID_le ks)).
    assert (list_to_set (uu.slice_ids sl) = contents (heap σ) (Some l)) as Hsl.
    { unfold sl. rewrite slice_ids_slice_of, merge_sort_Permutation, Hks.
      apply list_to_set_elements_L. }
    pose proof (IDSlice_Value_ok sl) as Hok.
    pose proof (IDSlice_Value_null sl) as Hnull.
    pose proof (IDSlice_Scan_Value sl) as Hrt.
    destruct (IDSlice_Value sl) as [[v|] err]; simpl in Hok, Hnull, Hrt;
      subst err; apply wp_bind; cbn [uu.Scan].
    + specialize (Hrt v eq_refl).
      destruct (IDSlice_Scan None (Some v)) as [sl' err'].
      simpl in Hrt. destruct Hrt as [-> Hrt].
      apply wp_bind, wp_IDSlice_AsSet. intros l' σ' Hl' Hσ'.
      cbn [heap set_rng] in Hl', Hσ'.
      pose proof (valid_fresh_ne _ _ _ Hl' Hv) as Hne.
      apply wp_ret, wp_bind, wp_Equal.
      { rewrite Hσ'. simpl. by rewrite lookup_insert_eq. }
      { rewrite Hσ'. by apply valid_insert. }
      intros r'. apply wp_ret. do 3 f_equal. apply bool_decide_eq_true_2.
      rewrite Hσ', contents_insert, contents_insert_ne by done.
      by rewrite Hrt.
    + apply wp_ret, wp_bind, wp_Equal; [done..|]. intros r'. apply wp_ret.
      do 3 f_equal. apply bool_decide_eq_true_2.
      cbn [heap set_rng]. rewrite <-Hsl, Hnull by done. done.
  - apply wp_ret, wp_bind, wp_ret, wp_bind, wp_Equal; [done..|].
    intros r. by apply wp_ret.
Qed.

End more_roundtrips.

End more.

(** ** The three-identifier implementation meets the contracts *)

Section fixture_facts.
Import GoStrings Fixture.
#[local] Existing Instance deps.

#[local] Instance fixture_le_trans : Transitive id3_le.
Proof. intros x y z. unfold id3_le. lia. Qed.

#[local] Instance fixture_le_antisym : AntiSymm (=) id3_le.
Proof. intros [] []; unfold id3_le; simpl; (done || lia). Qed.

#[local] Instance fixture_le_total : Total id3_le.
Proof. intros x y. unfold id3_le. lia. Qed.

Lemma fixture_String_nonempty (id : id3) : id3_String id ≠ EmptyString.
Proof. by destruct id. Qed.

Lemma fixture_String_no_comma (id : id3) : contains_byte (id3_String id) "," = false.
Proof. by destruct id. Qed.

Lemma fixture_FromString_String (id : id3) :
  id3_FromString (trim_space (id3_String id)) = (id, None).
Proof. by destruct id. Qed.

Lemma fixture_of_json_json (l : list id3) : mapM id3_of_json (id3_json <$> l) = Some l.
Proof.
  apply mapM_fmap_Some. by intros [].
Qed.

Lemma fixture_MarshalJSON_ok (sl : option (list id3)) : (slice_MarshalJSON sl).2 = None.
Proof. by destruct sl. Qed.

Lemma fixture_MarshalJSON_null (sl : option (list id3)) :
  GoBytes.Equal (slice_MarshalJSON sl).1 (GoBytes.of_string "null") = true →
  uu.slice_ids sl = [].
Proof. destruct sl as [l|]; [|done]. discriminate. Qed.

Lemma fixture_UnmarshalJSON_MarshalJSON (sl : option (list id3)) :
  let r := slice_UnmarshalJSON None (slice_MarshalJSON sl).1 in
  r.2 = None ∧ uu.slice_ids r.1 = uu.slice_ids sl.
Proof.
  destruct sl as [l|]; [|done]. cbn zeta.
  unfold slice_UnmarshalJSON, slice_MarshalJSON, GoBytes.to_string, GoBytes.of_string.
  cbn [fst]. rewrite String.string_of_list_byte_of_string.
  set (body := Join (id3_json <$> l) ",").
  change (String.eqb ("[" +:+ body +:+ "]") "null") with false. cbv iota.
  unfold decode_list.
  rewrite HasPrefix_app, HasSuffix_brackets, slice_brackets. cbn [andb].
  destruct l as [|x l]; [done|].
  destruct (String.eqb_spec body EmptyString) as [Hbody|_].
  { apply Join_empty in Hbody; [done|].
    apply Forall_fmap, Forall_forall. by intros [] _. }
  unfold body. rewrite Split_Join, fixture_of_json_json; [done|done|].
  apply Forall_fmap, Forall_forall. by intros [] _.
Qed.

Lemma fixture_store_valid (l : positive) (r : nat → nat) :
  (l ≤ 4)%positive → valid (heap {| heap := tables; rng := r |}) (Some l).
Proof.
  intros Hl.
  assert (l = 1 ∨ l = 2 ∨ l = 3 ∨ l = 4)%positive as [->|[->|[->| ->]]] by lia;
    simpl; eauto.
Qed.

Lemma fixture_Value_ok (sl : option (list id3)) : (slice_Value sl).2 = None.
Proof. by destruct sl. Qed.

Lemma fixture_Value_null (sl : option (list id3)) :
  (slice_Value sl).1 = None → uu.slice_ids sl = [].
Proof. by destruct sl. Qed.

Lemma fixture_Scan_Value (sl : option (list id3)) (v : string) :
  (slice_Value sl).1 = Some v →
  let r := slice_Scan None (Some v) in
  r.2 = None ∧ uu.slice_ids r.1 = uu.slice_ids sl.
Proof.
  destruct sl as [l|]; [|done]. intros [= <-]. cbn zeta.
  unfold slice_Scan, decode_list.
  set (body := Join (id3_String <$> l) ",").
  assert (HasSuffix ("{" +:+ body +:+ "}") "}" = true) as Hsuf
    by apply (HasSuffix_app ("{" +:+ body) "}").
  assert (slice ("{" +:+ body +:+ "}") 1 (len ("{" +:+ body +:+ "}") - 1) = Some body)
    as Hslice by apply (slice_strip_ends "{" "}" body).
  rewrite HasPrefix_app, Hsuf, Hslice. cbn [andb].
  destruct l as [|x l]; [done|].
  destruct (String.eqb_spec body EmptyString) as [Hbody|_].
  { apply Join_empty in Hbody; [done|].
    apply Forall_fmap, Forall_forall. by intros [] _. }
  unfold body. rewrite Split_Join; [|done|].
  - rewrite (mapM_fmap_Some id3_of_text id3_String); [done|]. by intros [].
  - apply Forall_fmap, Forall_forall. by intros [] _.
Qed.

End fixture_facts.

(** ** The theorems at concrete inputs *)

Section witnesses.
Import Fixture.
#[local] Existing Instance deps.

(** C1, as stated, fails: the set parsed from [set[]] is the nil set, so
    [IsNull()] is true of it, not false. *)
Lemma IDSetFromString_empty_brackets_counterexample :
  ∃ s, uu.IDSetFromString "set[]" store = Some ((s, None), store) ∧
       uu.IsNull s = true.
Proof. by exists None. Qed.

Lemma roundtrip_String_and_JSON_witness :
  let s : IDSet := Some 1%positive in
  valid (heap store) s ∧
  wp (let* str := uu.String s in
      let* '(parsed, err) := uu.IDSetFromString str in
      let* eq := uu.Equal parsed s in
      ret (err, eq)) store (λ r _, r = (None, true)) ∧
  wp (let* '(data, err) := uu.MarshalJSON s in
      let* '(decoded, err') := uu.UnmarshalJSON None data in
      let* eq := uu.Equal decoded s in
      ret (err, err', eq)) store (λ r _, r = (None, None, true)).
Proof.
  assert (valid (heap store) (Some 1%positive)) as Hv
    by (apply fixture_store_valid; lia).
  split; [exact Hv|].
  exact (roundtrip_String_and_JSON
           fixture_String_nonempty fixture_String_no_comma
           fixture_FromString_String fixture_MarshalJSON_ok
           fixture_MarshalJSON_null fixture_UnmarshalJSON_MarshalJSON
           (Some 1%positive) None store Hv).
Defined.

Lemma Diff_symmetric_difference_witness :
  let A : IDSet := Some 1%positive in
  let B : IDSet := Some 2%positive in
  valid (heap store) A ∧ valid (heap store) B ∧
  wp (uu.Diff A B) store (λ d σ', contents (heap σ') d = {[idA; idC]}).
Proof.
  assert (valid (heap store) (Some 1%positive)) as HA
    by (apply fixture_store_valid; lia).
  assert (valid (heap store) (Some 2%positive)) as HB
    by (apply fixture_store_valid; lia).
  split; [exact HA|]. split; [exact HB|].
  eapply wp_mono;
    [exact (proj1 (Diff_symmetric_difference (Some 1%positive) (Some 2%positive) store HA HB))|].
  intros d σ' (_ & -> & _). by vm_compute.
Defined.

Lemma serialization_deterministic_witness :
  let s1 : IDSet := Some 1%positive in
  let s2 : IDSet := Some 4%positive in
  let r1 : nat → nat := λ n, n in
  let r2 : nat → nat := λ _, 1%nat in
  valid tables s1 ∧ valid tables s2 ∧
  wp (uu.Equal s1 s2) store (λ eq _, eq = true) ∧
  ∃ text json value,
    wp (uu.String s1) {| heap := tables; rng := r1 |} (λ out _, out = text) ∧
    wp (uu.String s2) {| heap := tables; rng := r2 |} (λ out _, out = text) ∧
    wp (uu.MarshalJSON s1) {| heap := tables; rng := r1 |} (λ out _, out = json) ∧
    wp (uu.MarshalJSON s2) {| heap := tables; rng := r2 |} (λ out _, out = json) ∧
    wp (uu.Value s1) {| heap := tables; rng := r1 |} (λ out _, out = value) ∧
    wp (uu.Value s2) {| heap := tables; rng := r2 |} (λ out _, out = value).
Proof.
  intros s1 s2 r1 r2.
  assert (valid tables s1) as H1 by (apply (fixture_store_valid 1 r1); lia).
  assert (valid tables s2) as H2 by (apply (fixture_store_valid 4 r1); lia).
  assert (wp (uu.Equal s1 s2) store (λ eq _, eq = true)) as Heq.
  { eexists _, _. split; [by vm_compute|done]. }
  split; [exact H1|]. split; [exact H2|]. split; [exact Heq|].
  exact (serialization_deterministic
           (ID_le_trans := fixture_le_trans) (ID_le_antisym := fixture_le_antisym)
           (ID_le_total := fixture_le_total)
           1%positive 4%positive tables (λ n, n) r1 r2 H1 H2 Heq).
Defined.

Lemma ForEach_stops_at_first_error_witness :
  let s : IDSet := Some 1%positive in
  valid (heap store) s ∧
  wp (uu.ForEach s stop_at_B []) store (λ '(env', err) σ',
    heap σ' = heap store ∧
    match err with
    | None =>
        ∃ visited, visited ≡ₚ elements (contents (heap store) s) ∧
                   returns_nil stop_at_B visited [] env'
    | Some e =>
        ∃ visited id rest env1,
          visited ++ id :: rest ≡ₚ elements (contents (heap store) s) ∧
          returns_nil stop_at_B visited [] env1 ∧
          stop_at_B id env1 = (env', Some e)
    end).
Proof.
  assert (valid (heap store) (Some 1%positive)) as Hv
    by (apply fixture_store_valid; lia).
  split; [exact Hv|].
  exact (ForEach_stops_at_first_error (Some 1%positive) stop_at_B [] store Hv).
Defined.

Lemma Clone_preserves_null_and_is_independent_witness :
  let s : IDSet := Some 1%positive in
  valid (heap store) s ∧
  wp (uu.Clone s) store (λ c σ1,
    uu.IsNull c = false ∧
    wp (mutate_all c [MAdd idC; MDelete idA]) σ1 (λ _ σ2,
      contents (heap σ2) s = contents (heap store) s)).
Proof.
  assert (valid (heap store) (Some 1%positive)) as Hv
    by (apply fixture_store_valid; lia).
  split; [exact Hv|].
  eapply wp_mono;
    [exact (Clone_preserves_null_and_is_independent (Some 1%positive) store Hv)|].
  intros c σ1 (Hnull & _ & _ & _ & _ & Hmut). split; [exact Hnull|].
  apply Hmut. by repeat constructor.
Defined.

Lemma Contains_nil_false_witness :
  let s : IDSet := None in
  uu.IsNull s = true ∧ uu.Contains s idA store = Some (false, store).
Proof.
  split; [reflexivity|].
  exact (Contains_nil_false None idA store eq_refl).
Defined.

Lemma Equal_nil_empty_witness :
  let n : IDSet := None in
  let e : IDSet := Some 3%positive in
  heap store !! 3%positive = Some ∅ ∧
  wp (uu.Equal n e) store (λ eq _, eq = true) ∧
  wp (uu.Equal e n) store (λ eq _, eq = true) ∧
  uu.IsNull n = true ∧ uu.IsNull e = false.
Proof.
  assert (heap store !! 3%positive = Some ∅) as Hl by reflexivity.
  split; [exact Hl|].
  exact (Equal_nil_empty 3%positive store Hl).
Defined.

Lemma Equal_decides_set_equality_witness :
  let s : IDSet := Some 1%positive in
  let other : IDSet := Some 2%positive in
  valid (heap store) s ∧ valid (heap store) other ∧
  wp (uu.Equal s other) store (λ eq _, eq = false).
Proof.
  assert (valid (heap store) (Some 1%positive)) as Hs
    by (apply fixture_store_valid; lia).
  assert (valid (heap store) (Some 2%positive)) as Ho
    by (apply fixture_store_valid; lia).
  split; [exact Hs|]. split; [exact Ho|].
  eapply wp_mono;
    [exact (proj1 (Equal_decides_set_equality (Some 1%positive) (Some 2%positive) store Hs Ho))|].
  intros eq σ' [-> _]. by vm_compute.
Defined.

Lemma Add_AddSlice_AddSet_union_witness :
  let s : IDSet := Some 1%positive in
  let other : IDSet := Some 2%positive in
  valid (heap store) s ∧ valid (heap store) other ∧
  wp (uu.AddSet s other) store (λ _ σ',
    contents (heap σ') s = {[idA; idB; idC]}).
Proof.
  assert (valid (heap store) (Some 1%positive)) as Hs
    by (apply fixture_store_valid; lia).
  assert (valid (heap store) (Some 2%positive)) as Ho
    by (apply fixture_store_valid; lia).
  split; [exact Hs|]. split; [exact Ho|].
  eapply wp_mono;
    [exact (proj2 (proj2 (Add_AddSlice_AddSet_union 1%positive idA None
                            (Some 2%positive) store Hs Ho)))|].
  intros [] σ' ->. by vm_compute.
Defined.

Lemma Delete_Clear_DeleteSlice_DeleteSet_difference_witness :
  let s : IDSet := Some 1%positive in
  let other : IDSet := Some 2%positive in
  valid (heap store) s ∧ valid (heap store) other ∧
  wp (uu.DeleteSet s other) store (λ _ σ', contents (heap σ') s = {[idA]}).
Proof.
  assert (valid (heap store) (Some 1%positive)) as Hs
    by (apply fixture_store_valid; lia).
  assert (valid (heap store) (Some 2%positive)) as Ho
    by (apply fixture_store_valid; lia).
  split; [exact Hs|]. split; [exact Ho|].
  eapply wp_mono;
    [exact (proj1 (proj2 (proj2 (proj2
       (Delete_Clear_DeleteSlice_DeleteSet_difference 1%positive idA None
          (Some 2%positive) store Hs Ho)))))|].
  intros [] σ' ->. by vm_compute.
Defined.

Lemma nil_receiver_deletes_return_adds_panic_witness :
  let other : IDSet := Some 2%positive in
  valid (heap store) other ∧
  uu.DeleteSlice None (Some [idA; idB]) store = Some (tt, store) ∧
  uu.AddSet None other store = None.
Proof.
  assert (valid (heap store) (Some 2%positive)) as Ho
    by (apply fixture_store_valid; lia).
  pose proof (nil_receiver_deletes_return_adds_panic idA (Some [idA; idB])
                (Some 2%positive) store Ho)
    as (_ & _ & Hdel & _ & _ & _ & _ & Hadd).
  split; [exact Ho|]. split; [exact Hdel|].
  apply (Hadd idB). by vm_compute.
Defined.

Lemma Add_Delete_then_Contains_Len_witness :
  let s : IDSet := Some 1%positive in
  valid (heap store) s ∧
  wp (uu.Add s idC;; uu.Len s) store (λ n _, n = 3) ∧
  wp (uu.Add s idA;; uu.Len s) store (λ n _, n = 2).
Proof.
  assert (valid (heap store) (Some 1%positive)) as Hs
    by (apply fixture_store_valid; lia).
  split; [exact Hs|]. split.
  - eapply wp_mono;
      [exact (proj1 (proj2 (proj2
         (Add_Delete_then_Contains_Len 1%positive idC idA store Hs))))|].
    intros n σ' ->. by vm_compute.
  - eapply wp_mono;
      [exact (proj1 (proj2 (proj2
         (Add_Delete_then_Contains_Len 1%positive idA idA store Hs))))|].
    intros n σ' ->. by vm_compute.
Defined.

Lemma AsSlice_each_element_once_witness :
  let s : IDSet := Some 2%positive in
  valid (heap store) s ∧
  wp (uu.AsSlice s) store (λ sl _, length (uu.slice_ids sl) = 2%nat).
Proof.
  assert (valid (heap store) (Some 2%positive)) as Hs
    by (apply fixture_store_valid; lia).
  split; [exact Hs|].
  eapply wp_mono; [exact (AsSlice_each_element_once (Some 2%positive) store Hs)|].
  intros sl σ' (_ & _ & _ & -> & _). by vm_compute.
Defined.

Lemma GetOne_nil_or_member_witness :
  let s : IDSet := Some 3%positive in
  valid (heap store) s ∧ wp (uu.GetOne s) store (λ id _, id = idA).
Proof.
  assert (valid (heap store) (Some 3%positive)) as Hs
    by (apply fixture_store_valid; lia).
  split; [exact Hs|].
  eapply wp_mono; [exact (GetOne_nil_or_member (Some 3%positive) store Hs)|].
  intros id σ' (_ & Hnil & _). apply Hnil. by vm_compute.
Defined.

Lemma empty_set_is_formatted_as_nil_slice_witness :
  heap store !! 3%positive = Some ∅ ∧
  uu.MarshalJSON (Some 3%positive) store = Some ((GoBytes.of_string "null", None), store).
Proof.
  assert (heap store !! 3%positive = Some ∅) as Hl by reflexivity.
  split; [exact Hl|].
  exact (proj1 (proj2 (proj2 (proj2
           (empty_set_is_formatted_as_nil_slice 3%positive store Hl))))).
Defined.

Lemma Diff_twice_gives_back_witness :
  let A : IDSet := Some 1%positive in
  let B : IDSet := Some 2%positive in
  valid (heap store) A ∧ valid (heap store) B ∧
  wp (let* d := uu.Diff A B in
      let* d' := uu.Diff A d in
      uu.Equal d' B) store (λ eq _, eq = true).
Proof.
  assert (valid (heap store) (Some 1%positive)) as HA
    by (apply fixture_store_valid; lia).
  assert (valid (heap store) (Some 2%positive)) as HB
    by (apply fixture_store_valid; lia).
  split; [exact HA|]. split; [exact HB|].
  exact (proj1 (Diff_twice_gives_back (Some 1%positive) (Some 2%positive) store HA HB)).
Defined.

Lemma Len_IsEmpty_IsNull_witness :
  let s : IDSet := Some 3%positive in
  valid (heap store) s ∧
  wp (let* n := uu.Len s in
      let* empty := uu.IsEmpty s in
      ret (n, empty)) store (λ '(n, empty) _, n = 0 ∧ empty = true).
Proof.
  assert (valid (heap store) (Some 3%positive)) as Hs
    by (apply fixture_store_valid; lia).
  split; [exact Hs|].
  eapply wp_mono; [exact (Len_IsEmpty_IsNull (Some 3%positive) store Hs)|].
  intros [n empty] σ' (_ & -> & -> & _). by vm_compute.
Defined.

Lemma Strings_sorted_string_forms_witness :
  let s : IDSet := Some 1%positive in
  valid (heap store) s ∧
  wp (uu.Strings s) store (λ r _,
    match r with
    | None => False
    | Some ss => Sorted String.le ss ∧ length ss = 2%nat
    end).
Proof.
  assert (valid (heap store) (Some 1%positive)) as Hs
    by (apply fixture_store_valid; lia).
  split; [exact Hs|].
  eapply wp_mono; [exact (Strings_sorted_string_forms (Some 1%positive) store Hs)|].
  intros [ss|] σ' [_ Hr].
  - destruct Hr as (Hsorted & Hperm & _). split; [exact Hsorted|].
    rewrite Hperm. by vm_compute.
  - by vm_compute in Hr.
Defined.

Lemma roundtrip_MarshalText_UnmarshalText_witness :
  let s : IDSet := Some 2%positive in
  valid (heap store) s ∧
  wp (let* '(text, err) := uu.MarshalText s in
      let* '(decoded, err') := uu.UnmarshalText None text in
      let* eq := uu.Equal decoded s in
      ret (err, err', eq)) store (λ r _, r = (None, None, true)).
Proof.
  assert (valid (heap store) (Some 2%positive)) as Hs
    by (apply fixture_store_valid; lia).
  split; [exact Hs|].
  exact (roundtrip_MarshalText_UnmarshalText
           fixture_String_nonempty fixture_String_no_comma
           fixture_FromString_String (Some 2%positive) None store Hs).
Defined.

Lemma roundtrip_Value_Scan_witness :
  let s : IDSet := Some 2%positive in
  valid (heap store) s ∧
  wp (let* '(value, err) := uu.Value s in
      let* '(scanned, err') := uu.Scan None value in
      let* eq := uu.Equal scanned s in
      ret (err, err', eq, negb (uu.IsNull s) || uu.IsNull scanned)) store
     (λ r _, r = (None, None, true, true)).
Proof.
  assert (valid (heap store) (Some 2%positive)) as Hs
    by (apply fixture_store_valid; lia).
  split; [exact Hs|].
  exact (roundtrip_Value_Scan
           fixture_Value_ok fixture_Value_null fixture_Scan_Value
           (Some 2%positive) None store Hs).
Defined.

End witnesses.

(** ** Runs on concrete inputs *)

Section examples.
Import Fixture.
#[local] Existing Instance deps.

Example MakeIDSet_collapses_duplicates :
  run (let* s := uu.MakeIDSet (Some [idA; idB; idA]) in uu.Len s) = Some 2.
Proof. reflexivity. Qed.

Example IDSetFromString_null_is_nil :
  run_set (uu.IDSetFromString "null") = Some ([], true, None).
Proof. reflexivity. Qed.

Example IDSetFromString_trims_tokens :
  run_set (uu.IDSetFromString
    "set[ c47f1e92-3a8b-4d5e-b6c1-9e2d7f4a8b16 ,0b9a2f4e-5c1d-4e7a-9f3b-6d8c2a1e4f70]")
  = Some ([idA; idC], false, None).
Proof. by vm_compute. Qed.

Example IDSetFromString_reports_bad_token :
  run_set (uu.IDSetFromString "set[0b9a2f4e-5c1d-4e7a-9f3b-6d8c2a1e4f70,zz]")
  = Some ([], true, Some "invalid UUID: zz").
Proof. by vm_compute. Qed.

Example String_sorts :
  run (uu.String (Some 2%positive))
  = Some "set[5e3c8d1a-7b2f-4a6c-8e9d-1f4b7c2a9d35,c47f1e92-3a8b-4d5e-b6c1-9e2d7f4a8b16]".
Proof. by vm_compute. Qed.

Example String_of_nil_and_of_empty :
  run (uu.String None) = Some "set[]" ∧ run (uu.String (Some 3%positive)) = Some "set[]".
Proof. by vm_compute. Qed.

Example Add_to_nil_panics : run (uu.Add None idA) = None.
Proof. reflexivity. Qed.

Example Delete_from_nil_is_no_op : run (uu.Delete None idA) = Some tt.
Proof. reflexivity. Qed.

Example ForEach_stops :
  ∃ visited, run (uu.ForEach (Some 1%positive) stop_at_B []) = Some (idB :: visited, Some "stop").
Proof. eexists. by vm_compute. Qed.

End examples.
